(** * anima.utils.MediaManager: the media-derivative pipeline

    A shallow embedding of the probe-output parser, the frame-count
    estimator, the thumbnail substitution policy, the ffmpeg option
    builders and the artifact linker of [anima/utils/__init__.py],
    followed by the properties proved about them.

    Python exceptions are values of [exn]; a computation that may raise
    has type [result A].  Python dictionaries are [gmap string _], Python
    floats are the kernel's binary64 floats. *)

From Stdlib Require Import ZArith Floats Ascii String List Lia Sorted.
From stdpp Require Import gmap strings list pretty.

Set Warnings "-inexact-float".

Local Open Scope Z_scope.
Local Open Scope string_scope.

(** ** Python runtime: exceptions and the error monad *)

Module Py.

Inductive exn : Set :=
| IndexError
| ValueError
| KeyError
| TypeError
| AttributeError
| ZeroDivisionError
| OverflowError
| RuntimeError
| IOError.

Inductive result (A : Type) : Type :=
| Ok (a : A)
| Raise (e : exn).

Arguments Ok {A} a.
Arguments Raise {A} e.

Definition bind {A B : Type} (r : result A) (k : A -> result B) : result B :=
  match r with
  | Ok a => k a
  | Raise e => Raise e
  end.

Definition returns {A : Type} (r : result A) : Prop := exists a, r = Ok a.

Definition raises {A : Type} (r : result A) : Prop := exists e, r = Raise e.

(** *** str *)

(** The characters of [string.whitespace]: tab, line feed, vertical tab,
    form feed, carriage return and space. *)
Definition is_space (c : ascii) : bool :=
  let n := nat_of_ascii c in
  ((9 <=? n)%nat && (n <=? 13)%nat) || (n =? 32)%nat.

Fixpoint lstrip (s : string) : string :=
  match s with
  | EmptyString => EmptyString
  | String c r => if is_space c then lstrip r else s
  end.

Fixpoint rstrip (s : string) : string :=
  match s with
  | EmptyString => EmptyString
  | String c r =>
      match rstrip r with
      | EmptyString => if is_space c then EmptyString else String c EmptyString
      | r' => String c r'
      end
  end.

(** [s.strip()] *)
Definition strip (s : string) : string := rstrip (lstrip s).

(** [c in s] for a one-character [c] *)
Fixpoint contains (c : ascii) (s : string) : bool :=
  match s with
  | EmptyString => false
  | String a r => if Ascii.eqb a c then true else contains c r
  end.

(** [s.split(c)]: cut at every occurrence of [c] *)
Fixpoint split (c : ascii) (s : string) : list string :=
  match s with
  | EmptyString => [EmptyString]
  | String a r =>
      if Ascii.eqb a c then EmptyString :: split c r
      else match split c r with
           | h :: t => String a h :: t
           | [] => [String a EmptyString]
           end
  end.

(** [a, b = xs]: unpacking into exactly two names *)
Definition unpack2 {A : Type} (xs : list A) : result (A * A) :=
  match xs with
  | [a; b] => Ok (a, b)
  | _ => Raise ValueError
  end.

(** [buf.pop(0)], with the list that remains *)
Definition pop0 {A : Type} (buf : list A) : result (A * list A) :=
  match buf with
  | [] => Raise IndexError
  | x :: rest => Ok (x, rest)
  end.

End Py.

Export Py.

(** [result] is a monad; the [x ← r; k] notation sequences statements
    and stops at the first exception. *)
#[global] Instance result_bind : MBind result := fun _ _ k r => bind r k.
#[global] Instance result_ret : MRet result := fun _ a => Ok a.

Module PyNum.

(** *** int and float *)

(** The value of a decimal digit. *)
Definition digit_of (c : ascii) : option Z :=
  let n := nat_of_ascii c in
  if ((48 <=? n)%nat && (n <=? 57)%nat)%bool then Some (Z.of_nat n - 48) else None.

(** Reads the longest run of decimal digits at the head of [s]: the number
    read (continuing from [acc]), how many digits it had, and the rest. *)
Fixpoint read_digits (s : string) (acc : Z) (n : nat) : Z * nat * string :=
  match s with
  | EmptyString => (acc, n, EmptyString)
  | String c r =>
      match digit_of c with
      | Some d => read_digits r (10 * acc + d) (S n)
      | None => (acc, n, s)
      end
  end.

(** An optional sign: [true] for [-]. *)
Definition read_sign (s : string) : bool * string :=
  match s with
  | String "-" r => (true, r)
  | String "+" r => (false, r)
  | _ => (false, s)
  end.

(** [int(s)] for a [str]: surrounding white space, an optional sign and at
    least one decimal digit; anything else is a [ValueError]. *)
Definition int_of_str (s : string) : result Z :=
  let '(neg, s1) := read_sign (strip s) in
  let '(v, n, rest) := read_digits s1 0 0 in
  match n, rest with
  | S _, EmptyString => Ok (if neg then - v else v)
  | _, _ => Raise ValueError
  end.

Definition lower (c : ascii) : ascii :=
  let n := nat_of_ascii c in
  if ((65 <=? n)%nat && (n <=? 90)%nat)%bool then ascii_of_nat (n + 32) else c.

Fixpoint lowercase (s : string) : string :=
  match s with
  | EmptyString => EmptyString
  | String c r => String (lower c) (lowercase r)
  end.

(** The binary64 number nearest to [m * 10 ^ e] (ties to even), [m >= 0]. *)
Definition float_of_decimal (neg : bool) (m e : Z) : float :=
  let x :=
    if (m =? 0)%Z then S754_zero false
    else if (0 <=? e)%Z then binary_normalize prec emax (m * 10 ^ e) 0 false
    else SFdiv prec emax (S754_finite false (Z.to_pos m) 0)
                         (S754_finite false (Z.to_pos (10 ^ (- e))) 0) in
  SF2Prim (if neg then SFopp x else x).

(** The exponent part of a float literal: nothing, or [e], a sign, digits. *)
Definition read_exponent (s : string) : result Z :=
  match s with
  | EmptyString => Ok 0
  | String c r =>
      if Ascii.eqb (lower c) "e" then
        let '(neg, r1) := read_sign r in
        let '(v, n, rest) := read_digits r1 0 0 in
        match n, rest with
        | S _, EmptyString => Ok (if neg then - v else v)
        | _, _ => Raise ValueError
        end
      else Raise ValueError
  end.

(** [float(s)] for a [str]: surrounding white space, an optional sign, then
    [inf], [infinity], [nan], or digits with an optional point and an
    optional exponent; anything else is a [ValueError]. *)
Definition float_of_str (s : string) : result float :=
  let '(neg, s1) := read_sign (strip s) in
  let w := lowercase s1 in
  if (String.eqb w "inf" || String.eqb w "infinity")%bool then
    Ok (if neg then neg_infinity else infinity)
  else if String.eqb w "nan" then Ok nan
  else
    let '(ip, n1, r1) := read_digits s1 0 0 in
    let '(m, n2, r2) :=
      match r1 with
      | String "." r => read_digits r ip 0
      | _ => (ip, 0%nat, r1)
      end in
    match (n1 + n2)%nat with
    | O => Raise ValueError
    | S _ =>
        ex ← read_exponent r2;
        Ok (float_of_decimal neg m (ex - Z.of_nat n2))
    end.

(** [float(n)] for an [int]: too large a number is an [OverflowError]. *)
Definition float_of_int (n : Z) : result float :=
  match binary_normalize prec emax n 0 false with
  | S754_infinity _ => Raise OverflowError
  | x => Ok (SF2Prim x)
  end.

(** [int(x)] for a [float]: truncation towards zero. *)
Definition int_of_float (x : float) : result Z :=
  match Prim2SF x with
  | S754_zero _ => Ok 0
  | S754_finite s m e =>
      let a := if (0 <=? e)%Z then Z.shiftl (Zpos m) e
               else Z.shiftr (Zpos m) (- e) in
      Ok (if s then - a else a)
  | S754_infinity _ => Raise OverflowError
  | S754_nan => Raise ValueError
  end.

(** [x / y] on floats *)
Definition float_div (x y : float) : result float :=
  if PrimFloat.eqb y 0%float then Raise ZeroDivisionError
  else Ok (PrimFloat.div x y).

(** *** Dynamically typed values *)

Inductive pyval : Type :=
| PyNone
| PyStr (s : string)
| PyInt (n : Z)
| PyFloat (x : float).

(** [float(v)] *)
Definition py_float (v : pyval) : result float :=
  match v with
  | PyNone => Raise TypeError
  | PyStr s => float_of_str s
  | PyInt n => float_of_int n
  | PyFloat x => Ok x
  end.

(** [int(v)] *)
Definition py_int (v : pyval) : result Z :=
  match v with
  | PyNone => Raise TypeError
  | PyStr s => int_of_str s
  | PyInt n => Ok n
  | PyFloat x => int_of_float x
  end.

Fixpoint str_repeat (n : nat) (s : string) : string :=
  match n with
  | O => EmptyString
  | S k => s +:+ str_repeat k s
  end.

(** [a * b] *)
Definition py_mul (a b : pyval) : result pyval :=
  match a, b with
  | PyFloat x, PyFloat y => Ok (PyFloat (PrimFloat.mul x y))
  | PyInt n, PyFloat y => x ← float_of_int n; Ok (PyFloat (PrimFloat.mul x y))
  | PyFloat x, PyInt n => y ← float_of_int n; Ok (PyFloat (PrimFloat.mul x y))
  | PyInt n, PyInt k => Ok (PyInt (n * k))
  | PyStr s, PyInt n | PyInt n, PyStr s => Ok (PyStr (str_repeat (Z.to_nat n) s))
  | _, _ => Raise TypeError
  end.

(** [v is None] *)
Definition is_none (v : pyval) : bool :=
  match v with
  | PyNone => true
  | _ => false
  end.

(** [v == s] for a [str] constant [s] *)
Definition is_str (v : pyval) (s : string) : bool :=
  match v with
  | PyStr s' => String.eqb s' s
  | _ => false
  end.

(** [d.get(k)] and [d.get(k, default)] on a [dict] of strings *)
Definition dict_get (d : gmap string string) (k : string) : pyval :=
  match d !! k with
  | Some v => PyStr v
  | None => PyNone
  end.

Definition dict_get_default (d : gmap string string) (k : string)
    (default : pyval) : pyval :=
  match d !! k with
  | Some v => PyStr v
  | None => default
  end.

End PyNum.

Export PyNum.


(** ** ProbeInfoParser: [MediaManager.get_video_info] *)

Module Probe.

(** A [StreamRecord] or [FormatRecord]: a [dict] from [str] to [str]. *)
Abbreviation record := (gmap string string).

(** [media_info]: the ['video_info'] entry is [None] until a [FORMAT] block
    closes. *)
Record media_info : Type := MediaInfo {
  video_info : option record;
  stream_info : list record
}.

(** The body of the two inner loops:
    [if '=' in line: flag, value = line.split('='); d[flag] = value]. *)
Definition store_field (line : string) (d : record) : result record :=
  if contains "=" line then
    '(flag, value) ← unpack2 (split "=" line);
    Ok (<[flag := value]> d)
  else Ok d.

(** The [STREAM] loop.  [line] is the current line, [buf] what is left of
    [output_buffer].  [cur] is [Some stream_info] while control is inside
    the inner [while line != '[/STREAM]'] loop and [None] at the head of
    the outer loop.  The inner loop is entered on the [[STREAM]] line
    itself, with the empty [stream_info]. *)
Fixpoint stream_loop (buf : list string) (cur : option record)
    (line : string) (acc : list record) {struct buf} : result (list record) :=
  let inner (stream_info : record) : result (list record) :=
    if String.eqb line "[/STREAM]" then
      (* the inner loop is over: append the copy, reset, pop in [try] *)
      let acc' := (acc ++ [stream_info])%list in
      match buf with
      | [] => Ok acc'
      | l :: buf' => stream_loop buf' None (strip l) acc'
      end
    else
      stream_info' ← store_field line stream_info;
      match buf with
      | [] => Raise IndexError
      | l :: buf' => stream_loop buf' (Some stream_info') (strip l) acc
      end
  in
  match cur with
  | Some stream_info => inner stream_info
  | None =>
      if String.eqb line "[STREAM]" then inner ∅
      else match buf with
           | [] => Ok acc
           | l :: buf' => stream_loop buf' None (strip l) acc
           end
  end.

(** The [FORMAT] loop.  [video_info] is one dictionary for the whole call:
    it is not reset between blocks, and [media_info['video_info']] refers
    to it once a block has closed ([seen]). *)
Fixpoint format_loop (buf : list string) (inside : bool) (line : string)
    (video_info : record) (seen : bool) {struct buf}
    : result (option record) :=
  let inner : result (option record) :=
    if String.eqb line "[/FORMAT]" then
      match buf with
      | [] => Ok (Some video_info)
      | l :: buf' => format_loop buf' false (strip l) video_info true
      end
    else
      video_info' ← store_field line video_info;
      match buf with
      | [] => Raise IndexError
      | l :: buf' => format_loop buf' true (strip l) video_info' seen
      end
  in
  if inside then inner
  else if String.eqb line "[FORMAT]" then inner
  else match buf with
       | [] => Ok (if seen then Some video_info else None)
       | l :: buf' => format_loop buf' false (strip l) video_info seen
       end.

(** The first half of [get_video_info], on the lines printed by
    [ffprobe -show_streams]. *)
Definition parse_streams (output_buffer : list string) : result (list record) :=
  '(l, buf) ← pop0 output_buffer;
  stream_loop buf None (strip l) [].

(** The second half, on the lines printed by [ffprobe -show_format]. *)
Definition parse_format (output_buffer : list string) : result (option record) :=
  '(l, buf) ← pop0 output_buffer;
  format_loop buf false (strip l) ∅ false.

(** [get_video_info], given what the two [ffprobe] calls printed. *)
Definition get_video_info (show_streams show_format : list string)
    : result media_info :=
  streams ← parse_streams show_streams;
  fmt ← parse_format show_format;
  Ok (MediaInfo fmt streams).

End Probe.

Export Probe.


(** ** FrameCountEstimator and FramePlan: the head of
    [MediaManager.generate_video_thumbnail] *)

Module Frames.

(** The loop that picks the video stream.  [video_stream] starts as [None]
    and is assigned at every stream whose ['codec_type'] is ['video'];
    [stream['codec_type']] raises [KeyError] on a record without that key. *)
Fixpoint select_video_stream (streams : list record)
    (video_stream : option record) : result (option record) :=
  match streams with
  | [] => Ok video_stream
  | stream :: rest =>
      match stream !! "codec_type" with
      | None => Raise KeyError
      | Some codec_type =>
          select_video_stream rest
            (if String.eqb codec_type "video" then Some stream
             else video_stream)
      end
  end.

(** A method call on a name that may hold [None]. *)
Definition deref {A : Type} (o : option A) : result A :=
  match o with
  | Some a => Ok a
  | None => Raise AttributeError
  end.

(** The frame rate when [nb_frames] cannot be used.  It is left a [str]
    when ['r_frame_rate'] is present and holds no ['/']. *)
Definition get_frame_rate (video_stream : record) (video_info : option record)
    : result pyval :=
  match video_stream !! "r_frame_rate" with
  | None =>
      vi ← deref video_info;
      x ← py_float (dict_get_default vi "TAG:framerate" (PyFloat 23.976));
      Ok (PyFloat x)
  | Some frame_rate =>
      if contains "/" frame_rate then
        '(nominator, denominator) ← unpack2 (split "/" frame_rate);
        n ← float_of_str nominator;
        d ← float_of_str denominator;
        q ← float_div n d;
        Ok (PyFloat q)
      else Ok (PyStr frame_rate)
  end.

(** The duration when [nb_frames] cannot be used. *)
Definition get_duration (video_stream : record) (video_info : option record)
    : result float :=
  let duration := dict_get video_stream "duration" in
  if is_str duration "N/A" then
    vi ← deref video_info;
    py_float (dict_get_default vi "duration" (PyInt 1))
  else py_float duration.

(** Lines 469 to 498: the total number of frames of the selected stream. *)
Definition estimate_nb_frames (video_stream : option record)
    (video_info : option record) : result Z :=
  vs ← deref video_stream;
  let nb_frames := dict_get vs "nb_frames" in
  nb_frames ←
    (if (is_none nb_frames || is_str nb_frames "N/A")%bool then
       frame_rate ← get_frame_rate vs video_info;
       duration ← get_duration vs video_info;
       x ← py_mul (PyFloat duration) frame_rate;
       n ← py_int x;
       Ok (PyInt n)
     else Ok nb_frames);
  py_int nb_frames.

(** Lines 460 to 498, from the parsed probe output to the frame count. *)
Definition total_frames (info : media_info) : result Z :=
  video_stream ← select_video_stream (stream_info info) None;
  estimate_nb_frames video_stream (video_info info).

(** [int(nb_frames * r)] for a float constant [r] *)
Definition scaled (nb_frames : Z) (r : float) : result Z :=
  x ← py_mul (PyInt nb_frames) (PyFloat r);
  py_int x.

(** Lines 507 to 509: [(start_frame, mid_frame, end_frame)]. *)
Definition frame_plan (nb_frames : Z) : result (Z * Z * Z) :=
  start_frame ← scaled nb_frames 0.10;
  mid_frame ← scaled nb_frames 0.5;
  e ← scaled nb_frames 0.90;
  Ok (start_frame, mid_frame, e - 1).

End Frames.

Export Frames.

(** ** ThumbnailComposer: the substitution policy *)

Module Thumbs.

(** The file system as far as the policy looks at it: the set of paths
    that exist. *)
Abbreviation files := (gset string).

(** [os.path.exists(p)] *)
Definition exists_ (fs : files) (p : string) : bool := bool_decide (p ∈ fs).

(** The three frame paths, in the order start, mid, end. *)
Record thumbs : Type := Thumbs {
  start_thumb_path : string;
  mid_thumb_path : string;
  end_thumb_path : string
}.

(** Lines 534 to 539 *)
Definition check_start (fs : files) (t : thumbs) : thumbs :=
  if negb (exists_ fs (start_thumb_path t)) then
    if exists_ fs (mid_thumb_path t) then
      Thumbs (mid_thumb_path t) (mid_thumb_path t) (end_thumb_path t)
    else if exists_ fs (end_thumb_path t) then
      Thumbs (end_thumb_path t) (end_thumb_path t) (end_thumb_path t)
    else t
  else t.

(** Lines 541 to 546 *)
Definition check_mid (fs : files) (t : thumbs) : thumbs :=
  if negb (exists_ fs (mid_thumb_path t)) then
    if exists_ fs (start_thumb_path t) then
      Thumbs (start_thumb_path t) (start_thumb_path t) (end_thumb_path t)
    else
      Thumbs (end_thumb_path t) (end_thumb_path t) (end_thumb_path t)
  else t.

(** Lines 548 to 554 *)
Definition check_end (fs : files) (t : thumbs) : thumbs :=
  if negb (exists_ fs (end_thumb_path t)) then
    if exists_ fs (mid_thumb_path t) then
      Thumbs (start_thumb_path t) (mid_thumb_path t) (mid_thumb_path t)
    else
      Thumbs (start_thumb_path t) (start_thumb_path t) (start_thumb_path t)
  else t.

(** Lines 533 to 554: the three checks one after the other, each on the
    paths the previous one left. *)
Definition resolve_thumbs (fs : files) (t : thumbs) : thumbs :=
  check_end fs (check_mid fs (check_start fs t)).

(** *** The policy as the specification words it

    "If the start frame failed to materialize: substitute the mid frame if
    it exists, else the end frame for both start and mid." *)
Definition spec_rule_start (fs : files) (t : thumbs) : thumbs :=
  if exists_ fs (start_thumb_path t) then t
  else if exists_ fs (mid_thumb_path t) then
    Thumbs (mid_thumb_path t) (mid_thumb_path t) (end_thumb_path t)
  else Thumbs (end_thumb_path t) (end_thumb_path t) (end_thumb_path t).

(** "If the mid frame failed to materialize: substitute the start frame if
    it exists, else collapse start and mid to the end frame." *)
Definition spec_rule_mid (fs : files) (t : thumbs) : thumbs :=
  if exists_ fs (mid_thumb_path t) then t
  else if exists_ fs (start_thumb_path t) then
    Thumbs (start_thumb_path t) (start_thumb_path t) (end_thumb_path t)
  else Thumbs (end_thumb_path t) (end_thumb_path t) (end_thumb_path t).

(** "If the end frame failed to materialize: substitute the mid frame if it
    exists, else collapse mid and end to the start frame." *)
Definition spec_rule_end (fs : files) (t : thumbs) : thumbs :=
  if exists_ fs (end_thumb_path t) then t
  else if exists_ fs (mid_thumb_path t) then
    Thumbs (start_thumb_path t) (mid_thumb_path t) (mid_thumb_path t)
  else Thumbs (start_thumb_path t) (start_thumb_path t) (start_thumb_path t).

(** "applied in this fixed order (start, then mid, then end) against the
    state after prior substitutions" *)
Definition spec_policy (fs : files) (t : thumbs) : thumbs :=
  spec_rule_end fs (spec_rule_mid fs (spec_rule_start fs t)).

End Thumbs.

Export Thumbs.

(** ** Paths: the functions of [os.path] the module calls (POSIX) *)

Module Path.

(** [s.rfind(c)], as the number of characters before the last [c] plus one:
    [0] when [c] does not occur. *)
Fixpoint rfind_succ (c : ascii) (s : string) : nat :=
  match s with
  | EmptyString => O
  | String a r =>
      match rfind_succ c r with
      | O => if Ascii.eqb a c then 1%nat else O
      | S k => S (S k)
      end
  end.

Definition drop_str (n : nat) (s : string) : string :=
  String.substring n (String.length s - n) s.

Definition take_str (n : nat) (s : string) : string :=
  String.substring 0 n s.

Fixpoint all_char (c : ascii) (s : string) : bool :=
  match s with
  | EmptyString => true
  | String a r => (Ascii.eqb a c && all_char c r)%bool
  end.

(** [s.rstrip('/')] *)
Fixpoint rstrip_sep (s : string) : string :=
  match s with
  | EmptyString => EmptyString
  | String c r =>
      match rstrip_sep r with
      | EmptyString => if Ascii.eqb c "/" then EmptyString else String c EmptyString
      | r' => String c r'
      end
  end.

(** [os.path.basename(p)] *)
Definition basename (p : string) : string := drop_str (rfind_succ "/" p) p.

(** [os.path.dirname(p)] *)
Definition dirname (p : string) : string :=
  let head := take_str (rfind_succ "/" p) p in
  if all_char "/" head then head else rstrip_sep head.

(** [os.path.splitext(p)]: the extension starts at the last dot of the
    last component, unless only dots precede it there. *)
Definition splitext (p : string) : string * string :=
  let sep := rfind_succ "/" p in
  let dot := rfind_succ "." p in
  if (sep <? dot)%nat then
    if all_char "." (String.substring sep (dot - 1 - sep) p) then (p, EmptyString)
    else (take_str (dot - 1) p, drop_str (dot - 1) p)
  else (p, EmptyString).

Definition starts_with_sep (s : string) : bool :=
  match s with
  | String "/" _ => true
  | _ => false
  end.

Fixpoint ends_with_sep (s : string) : bool :=
  match s with
  | EmptyString => false
  | String c EmptyString => Ascii.eqb c "/"
  | String _ r => ends_with_sep r
  end.

(** [os.path.join(a, b)] *)
Definition join (a b : string) : string :=
  if starts_with_sep b then b
  else if (String.eqb a EmptyString || ends_with_sep a)%bool then a +:+ b
  else a +:+ "/" +:+ b.

End Path.

(** ** MediaConverter: the option sets handed to [ffmpeg] *)

Module Convert.

(** The value of a keyword argument of [ffmpeg]. *)
Inductive optval : Type :=
| VStr (s : string)
| VInt (n : Z)
| VList (l : list string).

Abbreviation options := (gmap string optval).









(** The five builders under one name. *)
Inductive target : Set := H264 | WebM | ProRes | MJpeg | AnimatedGif.

(** The extension a builder gives to its output path. *)
Definition extension (t : target) : string :=
  match t with
  | H264 => ".mp4"
  | WebM => ".webm"
  | ProRes | MJpeg => ".mov"
  | AnimatedGif => ".gif"
  end.



End Convert.

(** ** ArtifactLinker: [upload_reference] and [upload_version_output] *)

Module Upload.

Import Path.

(** A [Link] object.  [thumbnail] refers to another [Link] of the heap. *)
Record link : Type := Link {
  full_path : string;
  original_filename : string;
  thumbnail : option nat
}.

(** What an upload reads and changes: the files that exist, the [Link]
    objects created so far (a [Link] is known by its index), and the
    parent collection, [task.references] or [version.outputs]. *)
Record world : Type := World {
  fs : gset string;
  heap : list link;
  collection : list nat
}.

(** A statement: it ends normally with a value or raises, and leaves a
    world either way. *)
Definition M (A : Type) : Type := world -> result A * world.

Definition ret {A : Type} (a : A) : M A := fun w => (Ok a, w).

Definition throw {A : Type} (e : exn) : M A := fun w => (Raise e, w).

Definition seq {A B : Type} (m : M A) (k : A -> M B) : M B :=
  fun w =>
    match m w with
    | (Ok a, w') => k a w'
    | (Raise e, w') => (Raise e, w')
    end.

(** [Link(full_path=.., original_filename=..)] *)
Definition new_link (p name : string) : M nat :=
  fun w =>
    (Ok (length (heap w)),
     World (fs w) (heap w ++ [Link p name None])%list (collection w)).

(** [l.thumbnail = t] *)
Definition set_thumbnail (l t : nat) : M unit :=
  fun w =>
    (Ok tt,
     World (fs w)
       (alter (fun o => Link (full_path o) (original_filename o) (Some t)) l
          (heap w))
       (collection w)).

(** [parent.append(l)] *)
Definition append_link (l : nat) : M unit :=
  fun w => (Ok tt, World (fs w) (heap w) (collection w ++ [l])%list).

(** [shutil.move(src, dst)]: fails when there is no file at [src].  The
    [os.makedirs] before it is wrapped in [try: ... except OSError: pass];
    directories are not part of the world, so it leaves no trace here. *)
Definition move (src dst : string) : M unit :=
  fun w =>
    if bool_decide (src ∈ fs w) then
      (Ok tt, World ({[dst]} ∪ fs w ∖ {[src]}) (heap w) (collection w))
    else (Raise IOError, w).

(** What one of the four generators does on a file: it returns a temporary
    path, at which it may or may not have left a file, or it raises. *)
Inductive outcome : Type :=
| Produced (temp_path : string) (materialized : bool)
| Failed (e : exn).

Definition run_generator (o : outcome) : M string :=
  fun w =>
    match o with
    | Produced p true => (Ok p, World ({[p]} ∪ fs w) (heap w) (collection w))
    | Produced p false => (Ok p, w)
    | Failed e => (Raise e, w)
    end.

(** The collaborators of the two uploads. *)
Record env : Type := Env {
  upload_file : string -> string -> string;
  generate_image_for_web : string -> outcome;
  generate_video_for_web : string -> outcome;
  generate_image_thumbnail : string -> outcome;
  generate_video_thumbnail : string -> outcome;
  make_relative : string -> string;
  to_os_independent_path : string -> string
}.

Definition image_formats : list string :=
  [".gif"; ".ico"; ".iff"; ".jpg"; ".jpeg"; ".png"; ".tga"; ".tif";
   ".tiff"; ".bmp"; ".exr"].

Definition video_formats : list string :=
  [".3gp"; ".a64"; ".asf"; ".avi"; ".dnxhd"; ".f4v"; ".filmstrip";
   ".flv"; ".h261"; ".h263"; ".h264"; ".ipod"; ".m4v"; ".matroska";
   ".mjpeg"; ".mkv"; ".mov"; ".mp4"; ".mpeg"; ".mpg"; ".mpeg1video";
   ".mpeg2video"; ".mv"; ".mxf"; ".ogg"; ".rm"; ".swf"; ".vc1";
   ".vcd"; ".vob"; ".webm"].

Definition mem (x : string) (l : list string) : bool :=
  existsb (String.eqb x) l.

(** The test on the extension shared by [generate_media_for_web] and
    [generate_thumbnail]: the image generator, the video generator, or
    the [RuntimeError] raised for any other file. *)
Definition dispatch (image video : string -> outcome)
    (file_full_path : string) : outcome :=
  let extension := lowercase (splitext file_full_path).2 in
  if mem extension image_formats then image file_full_path
  else if mem extension video_formats then video file_full_path
  else Failed RuntimeError.

Definition web_outcome (E : env) : string -> outcome :=
  dispatch (generate_image_for_web E) (generate_video_for_web E).

Definition thumbnail_outcome (E : env) : string -> outcome :=
  dispatch (generate_image_thumbnail E) (generate_video_thumbnail E).

(** [generate_media_for_web] *)
Definition generate_media_for_web (E : env) (file_full_path : string)
    : M string :=
  run_generator (web_outcome E file_full_path).

(** [generate_thumbnail] *)
Definition generate_thumbnail (E : env) (file_full_path : string)
    : M string :=
  run_generator (thumbnail_outcome E file_full_path).

(** The file written by [upload_file] exists afterwards. *)
Definition do_upload (E : env) (file_path filename : string) : M string :=
  fun w =>
    let p := upload_file E file_path filename in
    (Ok p, World ({[p]} ∪ fs w) (heap w) (collection w)).

Definition reference_path : string := "References/Stalker_Pyramid/".
Definition version_output_path : string := "Outputs/Stalker_Pyramid/".

(** [upload_reference(task, file_object, filename)], with
    [task.absolute_path] for [task]. *)
Definition upload_reference (E : env) (task_absolute_path filename : string)
    : M nat :=
  let file_path := join task_absolute_path reference_path in
  seq (do_upload E file_path filename) (fun reference_file_full_path =>
  let reference_file_file_name := basename reference_file_full_path in
  let reference_file_base_name := (splitext reference_file_file_name).1 in
  seq (new_link (make_relative E reference_file_full_path) filename) (fun link =>
  (* web version *)
  seq (generate_media_for_web E reference_file_full_path)
    (fun web_version_temp_full_path =>
  let web_version_extension := (splitext web_version_temp_full_path).2 in
  let web_version_file_name :=
    reference_file_base_name +:+ web_version_extension in
  let web_version_full_path :=
    join (join (dirname reference_file_full_path) "ForWeb")
         web_version_file_name in
  seq (new_link (make_relative E web_version_full_path) web_version_file_name)
    (fun web_version_link =>
  seq (move web_version_temp_full_path web_version_full_path) (fun _ =>
  (* thumbnail *)
  seq (generate_thumbnail E reference_file_full_path)
    (fun thumbnail_temp_full_path =>
  let thumbnail_extension := (splitext thumbnail_temp_full_path).2 in
  let thumbnail_file_name := reference_file_base_name +:+ thumbnail_extension in
  let thumbnail_full_path :=
    join (join (dirname reference_file_full_path) "Thumbnail")
         thumbnail_file_name in
  seq (new_link (make_relative E thumbnail_full_path) thumbnail_file_name)
    (fun thumbnail_link =>
  seq (move thumbnail_temp_full_path thumbnail_full_path) (fun _ =>
  (* link objects *)
  seq (append_link link) (fun _ =>
  seq (set_thumbnail link web_version_link) (fun _ =>
  seq (set_thumbnail web_version_link thumbnail_link) (fun _ =>
  ret link))))))))))).

(** One [try: ... except RuntimeError: pass] block of
    [upload_version_output].  The name bound to [None] before the block
    holds the new [Link] from the moment it is created, also when a later
    statement of the block raises. *)
Definition derivative_stage (E : env) (generate : M string)
    (version_output_file_full_path version_output_base_name folder
       filename : string) : M (option nat) :=
  fun w =>
    match generate w with
    | (Raise RuntimeError, w1) => (Ok None, w1)
    | (Raise e, w1) => (Raise e, w1)
    | (Ok temp_full_path, w1) =>
        let extension := (splitext temp_full_path).2 in
        let derived_full_path :=
          join (join (dirname version_output_file_full_path) folder)
               (version_output_base_name +:+ extension) in
        match new_link (to_os_independent_path E derived_full_path) filename w1 with
        | (Raise RuntimeError, w2) => (Ok None, w2)
        | (Raise e, w2) => (Raise e, w2)
        | (Ok l, w2) =>
            match move temp_full_path derived_full_path w2 with
            | (Raise RuntimeError, w3) => (Ok (Some l), w3)
            | (Raise e, w3) => (Raise e, w3)
            | (Ok _, w3) => (Ok (Some l), w3)
            end
        end
    end.

(** Lines 1416 to 1422: the root joins the parent collection, the web
    version hangs below the root, the thumbnail below the web version. *)
Definition link_objects (link : nat) (web_version_link thumbnail_link : option nat)
    : M nat :=
  seq (append_link link) (fun _ =>
  seq (match web_version_link with
       | Some wl =>
           seq (set_thumbnail link wl) (fun _ =>
           match thumbnail_link with
           | Some tl => set_thumbnail wl tl
           | None => ret tt
           end)
       | None => ret tt
       end) (fun _ =>
  ret link)).

(** [upload_version_output(version, file_object, filename)], with
    [version.absolute_path] for [version]. *)
Definition upload_version_output (E : env)
    (version_absolute_path filename : string) : M nat :=
  let file_path := join version_absolute_path version_output_path in
  seq (do_upload E file_path filename) (fun version_output_file_full_path =>
  let version_output_file_name := basename version_output_file_full_path in
  let version_output_base_name := (splitext version_output_file_name).1 in
  seq (new_link (to_os_independent_path E version_output_file_full_path) filename)
    (fun link =>
  seq (derivative_stage E
         (generate_media_for_web E version_output_file_full_path)
         version_output_file_full_path version_output_base_name "ForWeb"
         filename)
    (fun web_version_link =>
  seq (derivative_stage E
         (generate_thumbnail E version_output_file_full_path)
         version_output_file_full_path version_output_base_name "Thumbnail"
         filename)
    (fun thumbnail_link =>
  link_objects link web_version_link thumbnail_link)))).

(** *** Reading a chain off the heap *)

(** The [Link] a reference leads to. *)
Definition thumbnail_of (h : list link) (l : nat) : option nat :=
  o ← h !! l; thumbnail o.

(** The links reached from [l] by following [thumbnail], [l] first; [n]
    bounds the number of steps. *)
Fixpoint chain (h : list link) (n : nat) (l : nat) : list nat :=
  match n with
  | O => [l]
  | S k =>
      match thumbnail_of h l with
      | Some t => l :: chain h k t
      | None => [l]
      end
  end.

End Upload.

Export Upload.

(** ** Sequences: [all_equal], [common_prefix] and [relpath] *)

Module Prefix.

Section Elements.

Context {A : Type} `{EqDecision A}.

(** The loop of [all_equal]: [False] at the first element that differs
    from [first_element]. *)
Fixpoint all_equal_loop (first_element : A) (others : list A) : bool :=
  match others with
  | [] => true
  | other_element :: rest =>
      if bool_decide (other_element <> first_element) then false
      else all_equal_loop first_element rest
  end.

(** [all_equal(elements)]; [elements[0]] raises on the empty sequence. *)
Definition all_equal (elements : list A) : result bool :=
  match elements with
  | [] => Raise IndexError
  | first_element :: others => Ok (all_equal_loop first_element others)
  end.

(** The first element of every sequence, when none of them is empty. *)
Fixpoint heads (sequences : list (list A)) : option (list A) :=
  match sequences with
  | [] => Some []
  | [] :: _ => None
  | (x :: _) :: rest =>
      match heads rest with
      | Some hs => Some (x :: hs)
      | None => None
      end
  end.

(** [itertools.izip(first, *rest)]: the tuples of elements at the same
    position, up to the end of the shortest sequence. *)
Fixpoint izip_from (first : list A) (rest : list (list A)) : list (list A) :=
  match first with
  | [] => []
  | x :: first' =>
      match heads rest with
      | Some hs => (x :: hs) :: izip_from first' (map (drop 1) rest)
      | None => []
      end
  end.

(** [itertools.izip] of the sequences *)
Definition izip (sequences : list (list A)) : list (list A) :=
  match sequences with
  | [] => []
  | first :: rest => izip_from first rest
  end.

(** The loop of [common_prefix] over the tuples: it stops at the first
    tuple whose elements are not all equal. *)
Fixpoint common_loop (tuples : list (list A)) (common : list A)
    : result (list A) :=
  match tuples with
  | [] => Ok common
  | elements :: more =>
      eq ← all_equal elements;
      if negb eq then Ok common
      else
        match elements with
        | e0 :: _ => common_loop more (common ++ [e0])%list
        | [] => Raise IndexError
        end
  end.

(** [common_prefix] of the sequences: the common elements at the start of all
    sequences, and what is left of each sequence. *)
Definition common_prefix (sequences : list (list A))
    : result (list A * list (list A)) :=
  match sequences with
  | [] => Ok ([], [])
  | _ =>
      common ← common_loop (izip sequences) [];
      Ok (common, map (drop (length common)) sequences)
  end.

End Elements.

(** The two [re.sub] calls of [relpath] delete the match of a character
    class of one character [c], repeated, at the end of the string: the run
    of [c] at the end of [s] is removed.  The end anchor also matches before
    a line feed that ends the string, which then stays. *)
Fixpoint rstrip_char (c : ascii) (s : string) : string :=
  match s with
  | EmptyString => EmptyString
  | String a r =>
      match rstrip_char c r with
      | EmptyString => if Ascii.eqb a c then EmptyString else String a EmptyString
      | r' => String a r'
      end
  end.

Fixpoint ends_with_newline (s : string) : bool :=
  match s with
  | EmptyString => false
  | String a EmptyString => Ascii.eqb a "010"
  | String _ r => ends_with_newline r
  end.

Fixpoint drop_last (s : string) : string :=
  match s with
  | EmptyString => EmptyString
  | String _ EmptyString => EmptyString
  | String a r => String a (drop_last r)
  end.

Definition sub_trailing (c : ascii) (s : string) : string :=
  if ends_with_newline s then
    rstrip_char c (drop_last s) +:+ String "010" EmptyString
  else rstrip_char c s.

(** [sep.join(parts)] *)
Fixpoint str_join (sep : string) (parts : list string) : string :=
  match parts with
  | [] => EmptyString
  | [p] => p
  | p :: rest => p +:+ sep +:+ str_join sep rest
  end.

(** [relpath(p1, p2, sep, pardir)], for a separator of one character, as
    [os.path.sep] is. *)
Definition relpath (p1 p2 : string) (sep : ascii) (pardir : string)
    : result string :=
  let p1 := sub_trailing "/" p1 in
  let p1 := sub_trailing "\" p1 in
  '(common, tails) ← common_prefix [split sep p1; split sep p2];
  '(u1, u2) ← unpack2 tails;
  match common with
  | [] => Ok p2
  | _ =>
      Ok (str_join (String sep EmptyString)
            (replicate (length u1) pardir ++ u2)%list)
  end.

End Prefix.

Export Prefix.

(** ** ProcessRunner: the argument vectors of [ffmpeg] and [ffprobe] *)

Module Runner.

Import Convert.

(** What one keyword argument adds to [args]: the flag and [str(value)],
    or, for a list, the flag before each element. *)
Definition flag_args (key : string) (value : optval) : list string :=
  let flag := "-" +:+ key in
  match value with
  | VList l => l ≫= (fun v => [flag; v])
  | VStr s => [flag; s]
  | VInt n => [flag; pretty n]
  end.

(** The loop [for key in kwargs].  The order in which a dictionary yields
    its keys is fixed but unspecified; [map_to_list] stands for it. *)
Definition kwargs_args (kwargs : options) : list string :=
  map_to_list kwargs ≫= (fun kv => flag_args kv.1 kv.2).

(** The formats for which no [-threads] option is passed. *)
Definition still_formats : list string := ["jpg"; "jpeg"; "png"; "tga"].

(** [output.split('.')[-1]] *)
Definition last_part (output : string) : string :=
  List.last (split "." output) EmptyString.

(** The argument vector built by [ffmpeg] from its keyword arguments.  [output.split] is
    an [AttributeError] unless [kwargs['o']] is a [str]. *)
Definition ffmpeg_args (ffmpeg_command_path : string) (cpu_count : Z)
    (kwargs : options) : result (list string) :=
  let output := kwargs !! "o" in
  let kwargs := delete "o" kwargs in
  let args := ffmpeg_command_path :: kwargs_args kwargs in
  match output with
  | Some (VStr output) =>
      let args :=
        if mem (last_part output) still_formats then args
        else (args ++ ["-threads"; pretty cpu_count])%list in
      let args := (args ++ ["-y"])%list in
      Ok (if String.eqb output EmptyString then args
          else (args ++ [output])%list)
  | _ => Raise AttributeError
  end.

(** The argument vector built by [ffprobe] from its keyword arguments. *)
Definition ffprobe_args (ffprobe_command_path : string) (kwargs : options)
    : list string :=
  ffprobe_command_path :: kwargs_args kwargs.

(** The two programs and the machine, as far as the module depends on
    them: what [ffprobe] prints for an argument vector, and whether a run
    of [ffmpeg] leaves a file at its output path.  [ffmpeg] writes nowhere
    else. *)
Record tools : Type := Tools {
  ffmpeg_command_path : string;
  ffprobe_command_path : string;
  cpu_count : Z;
  ffprobe_stdout : list string -> list string;
  ffmpeg_writes : list string -> files -> bool;
  thumbnail_width : Z;
  thumbnail_height : Z
}.

(** A statement that reads and changes the file system. *)
Definition FS (A : Type) : Type := files -> result A * files.

Definition fs_seq {A B : Type} (m : FS A) (k : A -> FS B) : FS B :=
  fun fs =>
    match m fs with
    | (Ok a, fs') => k a fs'
    | (Raise e, fs') => (Raise e, fs')
    end.

Definition fs_pure {A : Type} (r : result A) : FS A := fun fs => (r, fs).

(** [self.ffmpeg]: the vector is built, the process runs and
    writes its output file or not. *)
Definition ffmpeg (T : tools) (kwargs : options) : FS unit :=
  fun fs =>
    match ffmpeg_args (ffmpeg_command_path T) (cpu_count T) kwargs with
    | Raise e => (Raise e, fs)
    | Ok args =>
        match kwargs !! "o" with
        | Some (VStr output) =>
            if (negb (String.eqb output EmptyString)
                && ffmpeg_writes T args fs)%bool
            then (Ok tt, {[ output ]} ∪ fs)
            else (Ok tt, fs)
        | _ => (Ok tt, fs)
        end
    end.









(** [self.ffprobe]: the lines of the standard output. *)
Definition ffprobe (T : tools) (kwargs : options) : list string :=
  ffprobe_stdout T (ffprobe_args (ffprobe_command_path T) kwargs).

(** [os.remove(p)] inside [try: ... except OSError: pass] *)
Definition remove_quietly (p : string) : FS unit :=
  fun fs => (Ok tt, fs ∖ {[ p ]}).

(** [self.get_video_info(full_path)] *)
Definition video_info_of (T : tools) (full_path : string) : result media_info :=
  get_video_info
    (ffprobe T {[ "show_streams" := VStr full_path ]})
    (ffprobe T {[ "show_format" := VStr full_path ]}).

(** The four names [tempfile.mktemp] hands out. *)
Record temp_names : Type := TempNames {
  planned : thumbs;
  thumbnail_path : string
}.

(** The filter of the compositing call. *)
Definition filter_complex (tw th : string) : string :=
  "[0:0]scale=3*" +:+ tw +:+ "/4:-1,pad=" +:+ tw +:+ ":" +:+ th +:+ "[s];" +:+
  "[1:0]scale=3*" +:+ tw +:+ "/4:-1,fade=out:300:30:alpha=1[m];" +:+
  "[2:0]scale=3*" +:+ tw +:+ "/4:-1,fade=out:300:30:alpha=1[e];" +:+
  "[s][e]overlay=" +:+ tw +:+ "/4:" +:+ th +:+ "-h[x];" +:+
  "[x][m]overlay=" +:+ tw +:+ "/8:" +:+ th +:+ "/2-h/2".

(** Lines 511 to 531: the three extractions. *)
Definition extract_frames (T : tools) (file_full_path : string)
    (plan : Z * Z * Z) (t : thumbs) : FS unit :=
  let '(start_frame, mid_frame, end_frame) := plan in
  fs_seq (ffmpeg T {[ "i" := VStr file_full_path;
                      "vf" := VStr "select='eq(n,0)'";
                      "vframes" := VInt start_frame;
                      "o" := VStr (start_thumb_path t) ]}) (fun _ =>
  fs_seq (ffmpeg T {[ "i" := VStr file_full_path;
                      "vf" := VStr ("select='eq(n," +:+ pretty mid_frame +:+ ")'");
                      "vframes" := VInt 1;
                      "o" := VStr (mid_thumb_path t) ]}) (fun _ =>
  ffmpeg T {[ "i" := VStr file_full_path;
              "vf" := VStr ("select='eq(n," +:+ pretty end_frame +:+ ")'");
              "vframes" := VInt 1;
              "o" := VStr (end_thumb_path t) ]})).

(** Lines 533 to 588: substitution, compositing, removal of the frames. *)
Definition compose_thumbnail (T : tools) (names : temp_names) : FS string :=
  fun fs =>
    let r := resolve_thumbs fs (planned names) in
    fs_seq (ffmpeg T
              {[ "i" := VList [start_thumb_path r; mid_thumb_path r;
                               end_thumb_path r];
                 "filter_complex" :=
                   VStr (filter_complex (pretty (thumbnail_width T))
                           (pretty (thumbnail_height T)));
                 "o" := VStr (thumbnail_path names) ]}) (fun _ =>
    fs_seq (remove_quietly (start_thumb_path r)) (fun _ =>
    fs_seq (remove_quietly (mid_thumb_path r)) (fun _ =>
    fs_seq (remove_quietly (end_thumb_path r)) (fun _ =>
    fs_pure (Ok (thumbnail_path names)))))) fs.

(** [generate_video_thumbnail(file_full_path)] *)
Definition generate_video_thumbnail (T : tools) (names : temp_names)
    (file_full_path : string) : FS string :=
  fs_seq (fs_pure (video_info_of T file_full_path)) (fun info =>
  fs_seq (fs_pure (total_frames info)) (fun nb_frames =>
  fs_seq (fs_pure (frame_plan nb_frames)) (fun plan =>
  fs_seq (extract_frames T file_full_path plan (planned names)) (fun _ =>
  compose_thumbnail T names)))).

End Runner.

Export Runner.

(** ** Strings with embedded numbers *)

Module Natural.

(** An element of the key: a piece of text or a number. *)
Inductive piece : Type :=
| Text (s : string)
| Num (n : Z).

(** What [\d] matches. *)
Definition is_digit (c : ascii) : bool :=
  match digit_of c with
  | Some _ => true
  | None => false
  end.

(** [re_digits.split(s)] for the pattern of one group of one or more
    digits: the text between the runs of digits and, since the pattern is a
    group, the runs themselves, in turn.  [cur] is the piece being read,
    [in_digits] says whether it is a run of digits. *)
Fixpoint split_digits (s : string) (in_digits : bool) (cur : string)
    : list string :=
  match s with
  | EmptyString => if in_digits then [cur; EmptyString] else [cur]
  | String c r =>
      if is_digit c then
        if in_digits then split_digits r true (cur +:+ String c EmptyString)
        else cur :: split_digits r true (String c EmptyString)
      else
        if in_digits then cur :: split_digits r false (String c EmptyString)
        else split_digits r false (cur +:+ String c EmptyString)
  end.

(** [pieces[1::2] = map(int, pieces[1::2])]: the pieces at the odd
    positions become numbers. *)
Fixpoint convert_odd (pieces : list string) (odd : bool) : result (list piece) :=
  match pieces with
  | [] => Ok []
  | p :: rest =>
      x ← (if odd then n ← int_of_str p; Ok (Num n) else Ok (Text p));
      xs ← convert_odd rest (negb odd);
      Ok (x :: xs)
  end.

(** Whether every character of [s] satisfies [P]. *)
Fixpoint every (P : ascii -> bool) (s : string) : bool :=
  match s with
  | EmptyString => true
  | String c r => P c && every P r
  end.

(** A key that reads text, number, text, and so on, and ends with text;
    [odd] says whether a number comes next. *)
Fixpoint alternating (odd : bool) (k : list piece) : bool :=
  match k with
  | [] => odd
  | Text _ :: r => negb odd && alternating true r
  | Num _ :: r => odd && alternating false r
  end.

(** [embedded_numbers(s)] *)
Definition embedded_numbers (s : string) : result (list piece) :=
  convert_odd (split_digits s false EmptyString) false.

(** The order of two pieces: numbers by value, text by characters, and a
    number before any text. *)
Definition piece_compare (a b : piece) : comparison :=
  match a, b with
  | Num m, Num n => Z.compare m n
  | Text s, Text t => String.compare s t
  | Num _, Text _ => Lt
  | Text _, Num _ => Gt
  end.

(** The order of two keys: by the first pieces that differ, a key that is
    the start of the other one first. *)
Fixpoint key_compare (k1 k2 : list piece) : comparison :=
  match k1, k2 with
  | [], [] => Eq
  | [], _ :: _ => Lt
  | _ :: _, [] => Gt
  | a :: k1', b :: k2' =>
      match piece_compare a b with
      | Eq => key_compare k1' k2'
      | c => c
      end
  end.

Definition key_le (k1 k2 : list piece) : bool :=
  match key_compare k1 k2 with
  | Gt => false
  | _ => true
  end.

(** [sorted] is stable: an element goes before the first one whose key is
    not smaller than its own. *)
Fixpoint insert_keyed (x : list piece * string)
    (l : list (list piece * string)) : list (list piece * string) :=
  match l with
  | [] => [x]
  | y :: l' => if key_le x.1 y.1 then x :: l else y :: insert_keyed x l'
  end.

Definition sort_keyed (l : list (list piece * string))
    : list (list piece * string) :=
  foldr insert_keyed [] l.

(** The keys of all the strings, in order. *)
Fixpoint keyed (data : list string) : result (list (list piece * string)) :=
  match data with
  | [] => Ok []
  | s :: rest =>
      k ← embedded_numbers s;
      ks ← keyed rest;
      Ok ((k, s) :: ks)
  end.

(** [sort_strings_with_embedded_numbers(data)] *)
Definition sort_strings_with_embedded_numbers (data : list string)
    : result (list string) :=
  ks ← keyed data;
  Ok (map snd (sort_keyed ks)).

(** Whether each string's key is not above the key of the next one. *)
Fixpoint ordered (l : list string) : bool :=
  match l with
  | x :: ((y :: _) as r) =>
      match embedded_numbers x, embedded_numbers y with
      | Ok kx, Ok ky => key_le kx ky
      | _, _ => false
      end && ordered r
  | _ => true
  end.

End Natural.

Export Natural.

(** ** Vocabulary of the specification and sample inputs *)

Module Spec.

(** A stream record "whose codec_type equals video". *)
Definition is_video (r : record) : bool :=
  bool_decide (r !! "codec_type" = Some "video").

(** "first record whose codec_type equals video" *)
Definition first_video (streams : list record) : option record :=
  List.find is_video streams.

(** "the number of well-formed [STREAM]...[/STREAM] block pairs in the
    input, regardless of trailing unterminated blocks": a block opens at a
    [[STREAM]] line met outside a block and is counted when the next
    [[/STREAM]] line closes it. *)
Fixpoint count_blocks (inside : bool) (lines : list string) : nat :=
  match lines with
  | [] => O
  | l :: rest =>
      if inside then
        if String.eqb (strip l) "[/STREAM]" then S (count_blocks false rest)
        else count_blocks true rest
      else if String.eqb (strip l) "[STREAM]" then count_blocks true rest
      else count_blocks false rest
  end.

(** "trailing unterminated blocks": whether the input stops inside a
    block. *)
Fixpoint ends_inside (inside : bool) (lines : list string) : bool :=
  match lines with
  | [] => inside
  | l :: rest =>
      if inside then ends_inside (negb (String.eqb (strip l) "[/STREAM]")) rest
      else ends_inside (String.eqb (strip l) "[STREAM]") rest
  end.

(** The same from the middle of the input. *)
Definition ends_inside_from (inside : bool) (line : string)
    (lines : list string) : bool :=
  ends_inside
    (if inside then negb (String.eqb line "[/STREAM]")
     else String.eqb line "[STREAM]") lines.

(** Whether the scan is inside a block. *)
Definition in_block (cur : option record) : bool :=
  match cur with
  | Some _ => true
  | None => false
  end.

(** The same count from the middle of the input: [line] is the current
    line, already stripped, [lines] what follows it. *)
Definition blocks_from (inside : bool) (line : string) (lines : list string)
    : nat :=
  if inside then
    if String.eqb line "[/STREAM]" then S (count_blocks false lines)
    else count_blocks true lines
  else if String.eqb line "[STREAM]" then count_blocks true lines
  else count_blocks false lines.

(** A derivative that is either there, its file written, or given up with
    the [RuntimeError] that [upload_version_output] catches. *)
Definition absorbed (o : outcome) : Prop :=
  match o with
  | Produced _ true => True
  | Failed RuntimeError => True
  | _ => False
  end.

(** Whether the generator left a derivative. *)
Definition produced (o : outcome) : bool :=
  match o with
  | Produced _ _ => true
  | Failed _ => false
  end.

(** The chain below a root [Link] at index [root] when the derivatives
    that exist are linked one below the other. *)
Definition expected_chain (root : nat) (web thumb : outcome) : list nat :=
  root ::
    (if produced web then
       S root :: (if produced thumb then [S (S root)] else [])
     else []).

(** Whether the frame plan for [n] frames is the one of the integer
    formulas: a tenth, a half, nine tenths less one, each rounded down. *)
Definition plan_agrees (n : Z) : bool :=
  match frame_plan n with
  | Ok (s, m, e) =>
      ((s =? n / 10)%Z && (m =? n / 2)%Z && (e =? 9 * n / 10 - 1)%Z)%bool
  | Raise _ => false
  end.

(** [P] on the [fuel] integers from [n] on. *)
Fixpoint all_from (fuel : nat) (n : Z) (P : Z -> bool) : bool :=
  match fuel with
  | O => true
  | S f => P n && all_from f (n + 1) P
  end.

(** The record a block leaves: its fields stored one after the other. *)
Definition record_of (fields : list (string * string)) : record :=
  foldl (fun d kv => <[ kv.1 := kv.2 ]> d) ∅ fields.

(** A line of a block that holds the field [kv]. *)
Definition holds_field (line : string) (kv : string * string) : Prop :=
  strip line = kv.1 +:+ String "=" kv.2 /\
  contains "=" kv.1 = false /\ contains "=" kv.2 = false.

(** Whether [c] is the last character of [s]. *)
Fixpoint last_is (c : ascii) (s : string) : bool :=
  match s with
  | EmptyString => false
  | String a EmptyString => Ascii.eqb a c
  | String _ r => last_is c r
  end.

(** A path that ends neither in a slash nor in a backslash, one final line
    feed set aside. *)
Definition no_trailing_separator (p : string) : bool :=
  let q := if ends_with_newline p then drop_last p else p in
  negb (last_is "/" q) && negb (last_is "\" q).

End Spec.

Export Spec.

Module Samples.

Definition nl : string := String (ascii_of_nat 10) EmptyString.

(** Two video streams of one file, which differ in [nb_frames], and an
    audio stream. *)
Definition video_a : record :=
  {[ "codec_type" := "video"; "nb_frames" := "10" ]}.
Definition video_b : record :=
  {[ "codec_type" := "video"; "nb_frames" := "20" ]}.
Definition audio_c : record :=
  {[ "codec_type" := "audio"; "nb_frames" := "30" ]}.

(** Probe output that stops inside a block. *)
Definition unterminated : list string :=
  ["[STREAM]" +:+ nl; "codec_type=video" +:+ nl].

(** Probe output with two closed blocks and a line between them. *)
Definition two_blocks : list string :=
  ["[STREAM]" +:+ nl; "codec_type=video" +:+ nl; "[/STREAM]" +:+ nl;
   "Stream mapping" +:+ nl;
   "[STREAM]" +:+ nl; "codec_type=audio" +:+ nl; "[/STREAM]" +:+ nl].

(** A video stream with a known frame count and unusable other fields. *)
Definition counted : record :=
  {[ "codec_type" := "video"; "nb_frames" := "120";
     "r_frame_rate" := "0/0"; "duration" := "N/A" ]}.

(** Probe output with a second [=] in a value. *)
Definition two_equals : list string :=
  ["[STREAM]" +:+ nl; "key=a=b" +:+ nl; "[/STREAM]" +:+ nl].

(** A video stream whose frame rate is a plain number. *)
Definition plain_rate : record :=
  {[ "codec_type" := "video"; "r_frame_rate" := "25"; "duration" := "10" ]}.

(** A raw video stream: neither the stream nor the container knows the
    duration. *)
Definition raw_stream : record :=
  {[ "codec_type" := "video"; "nb_frames" := "N/A";
     "r_frame_rate" := "25/1"; "duration" := "N/A" ]}.
Definition raw_format : record := {[ "duration" := "N/A" ]}.

(** A video stream with an unknown frame rate. *)
Definition zero_rate : record :=
  {[ "codec_type" := "video"; "r_frame_rate" := "0/0"; "duration" := "10" ]}.

(** The examples of the specification. *)
Definition ratio_rate : record :=
  {[ "codec_type" := "video"; "r_frame_rate" := "24/1"; "duration" := "10" ]}.
Definition no_rate : record :=
  {[ "codec_type" := "video"; "duration" := "1" ]}.

(** A video stream with a negative [nb_frames]. *)
Definition negative_count : record :=
  {[ "codec_type" := "video"; "nb_frames" := "-5" ]}.

Definition planned : thumbs :=
  Thumbs "/tmp/tmpS.jpg" "/tmp/tmpM.jpg" "/tmp/tmpE.jpg".

(** Collaborators for which every generator writes its file. *)
Definition all_good : env :=
  Env (fun d f => Path.join d f)
      (fun _ => Produced "/tmp/web.jpg" true)
      (fun _ => Produced "/tmp/web.webm" true)
      (fun _ => Produced "/tmp/thumb.jpg" true)
      (fun _ => Produced "/tmp/vthumb.jpg" true)
      id id.

(** Collaborators whose image conversion for the web gives up with a
    [RuntimeError] while the thumbnail generator works. *)
Definition web_fails : env :=
  Env (fun d f => Path.join d f)
      (fun _ => Failed RuntimeError)
      (fun _ => Failed RuntimeError)
      (fun _ => Produced "/tmp/thumb.jpg" true)
      (fun _ => Produced "/tmp/vthumb.jpg" true)
      id id.

(** Collaborators for a video file without a video stream: the web
    version is written, the thumbnail generator calls [get] on [None]. *)
Definition no_video_stream : env :=
  Env (fun d f => Path.join d f)
      (fun _ => Produced "/tmp/web.jpg" true)
      (fun _ => Produced "/tmp/web.webm" true)
      (fun _ => Produced "/tmp/thumb.jpg" true)
      (fun _ => Failed AttributeError)
      id id.

Definition empty_world : world := World ∅ [] [].

(** Collaborators whose video conversion returns its path without having
    written the file. *)
Definition silent_failure : env :=
  Env (fun d f => Path.join d f)
      (fun _ => Produced "/tmp/web.jpg" true)
      (fun _ => Produced "/tmp/web.webm" false)
      (fun _ => Produced "/tmp/thumb.jpg" true)
      (fun _ => Produced "/tmp/vthumb.jpg" true)
      id id.

(** A ten-second clip of 240 frames, of which [ffmpeg] extracts the middle
    frame only and then composes the thumbnail. *)
Definition clip_tools : tools :=
  Tools "ffmpeg" "ffprobe" 8
    (fun args =>
       if bool_decide ("-show_streams" ∈ args) then
         ["[STREAM]" +:+ nl; "codec_type=video" +:+ nl;
          "nb_frames=240" +:+ nl; "[/STREAM]" +:+ nl]
       else ["[FORMAT]" +:+ nl; "duration=10" +:+ nl; "[/FORMAT]" +:+ nl])
    (fun args _ =>
       bool_decide ("select='eq(n,120)'" ∈ args \/ "-filter_complex" ∈ args))
    512 512.

Definition clip_info : media_info :=
  MediaInfo (Some {[ "duration" := "10" ]})
    [ {[ "codec_type" := "video"; "nb_frames" := "240" ]} ].

(** A file with an audio stream only. *)
Definition audio_tools : tools :=
  Tools "ffmpeg" "ffprobe" 8
    (fun args =>
       if bool_decide ("-show_streams" ∈ args) then
         ["[STREAM]" +:+ nl; "codec_type=audio" +:+ nl; "[/STREAM]" +:+ nl]
       else ["[FORMAT]" +:+ nl; "duration=10" +:+ nl; "[/FORMAT]" +:+ nl])
    (fun _ _ => true)
    512 512.

Definition audio_info : media_info :=
  MediaInfo (Some {[ "duration" := "10" ]}) [ {[ "codec_type" := "audio" ]} ].

Definition clip_names : temp_names := TempNames planned "/tmp/tmpT.jpg".

End Samples.

(** * Properties *)

(** ** Frame plan *)

(** C7: for an estimated total of exactly 240 frames the frame plan is
    start = 24, mid = 120, end = 215. *)
Theorem C7_frame_plan_240 : frame_plan 240 = Ok (24, 120, 215).
Proof. vm_compute. reflexivity. Qed.

(** ** Substitution policy *)

Section Substitution.

Variable fs : files.

Ltac by_existence t :=
  destruct t as [s m e];
  unfold resolve_thumbs, spec_policy, check_end, check_mid, check_start,
    spec_rule_end, spec_rule_mid, spec_rule_start;
  cbn [start_thumb_path mid_thumb_path end_thumb_path];
  destruct (exists_ fs s) eqn:Hs, (exists_ fs m) eqn:Hm,
    (exists_ fs e) eqn:He;
  cbn [negb start_thumb_path mid_thumb_path end_thumb_path];
  rewrite ?Hs, ?Hm, ?He;
  cbn [negb start_thumb_path mid_thumb_path end_thumb_path];
  rewrite ?Hs, ?Hm, ?He;
  cbn [negb start_thumb_path mid_thumb_path end_thumb_path].

(** The code's three checks compute the policy of the specification. *)
Lemma resolve_thumbs_spec_policy (t : thumbs) :
  resolve_thumbs fs t = spec_policy fs t.
Proof. by_existence t; reflexivity. Qed.

(** When no frame exists the three paths collapse to the end path. *)
Lemma resolve_thumbs_none_exist (t : thumbs) :
  exists_ fs (start_thumb_path t) = false ->
  exists_ fs (mid_thumb_path t) = false ->
  exists_ fs (end_thumb_path t) = false ->
  resolve_thumbs fs t =
    Thumbs (end_thumb_path t) (end_thumb_path t) (end_thumb_path t).
Proof.
  intros H1 H2 H3. by_existence t; cbn in H1, H2, H3; congruence.
Qed.

(** C2: for every combination of existing and missing frame files the
    resolved triple is the result of the specification's three rules applied
    in the order start, mid, end, each on the state left by the previous
    one; when no frame materialized the three resolved paths are one and
    the same path, which does not exist. *)
Theorem C2_substitution_is_sequential_policy (t : thumbs) :
  resolve_thumbs fs t = spec_policy fs t /\
  (exists_ fs (start_thumb_path t) = false ->
   exists_ fs (mid_thumb_path t) = false ->
   exists_ fs (end_thumb_path t) = false ->
   let r := resolve_thumbs fs t in
   start_thumb_path r = mid_thumb_path r /\
   mid_thumb_path r = end_thumb_path r /\
   exists_ fs (end_thumb_path r) = false).
Proof.
  split; [apply resolve_thumbs_spec_policy |].
  intros H1 H2 H3 r. subst r.
  rewrite (resolve_thumbs_none_exist t H1 H2 H3). cbn. auto.
Qed.

(** C9: each resolved path is one of the three planned paths, and when at
    least one frame materialized all three resolved paths exist. *)
Theorem C9_resolved_paths_planned_and_existing (t : thumbs) :
  let planned := [start_thumb_path t; mid_thumb_path t; end_thumb_path t] in
  let r := resolve_thumbs fs t in
  (start_thumb_path r ∈ planned /\ mid_thumb_path r ∈ planned /\
   end_thumb_path r ∈ planned) /\
  (exists_ fs (start_thumb_path t) || exists_ fs (mid_thumb_path t)
     || exists_ fs (end_thumb_path t) = true ->
   exists_ fs (start_thumb_path r) = true /\
   exists_ fs (mid_thumb_path r) = true /\
   exists_ fs (end_thumb_path r) = true).
Proof.
  by_existence t; (split; [set_solver | cbn; intros; auto; try discriminate]).
Qed.

End Substitution.

Lemma C2_all_missing :
  let r := resolve_thumbs ∅ Samples.planned in
  start_thumb_path r = mid_thumb_path r /\
  mid_thumb_path r = end_thumb_path r /\
  exists_ ∅ (end_thumb_path r) = false.
Proof.
  apply (proj2 (C2_substitution_is_sequential_policy ∅ Samples.planned));
    reflexivity.
Defined.

Lemma C9_only_mid_exists :
  let fs : files := {[ "/tmp/tmpM.jpg" ]} in
  let r := resolve_thumbs fs Samples.planned in
  exists_ fs (start_thumb_path r) = true /\
  exists_ fs (mid_thumb_path r) = true /\
  exists_ fs (end_thumb_path r) = true.
Proof.
  intros fs.
  apply (proj2 (C9_resolved_paths_planned_and_existing fs Samples.planned)).
  vm_compute. reflexivity.
Defined.

(** ** Choice of the video stream *)

Section VideoStream.

Implicit Types (streams pre post : list record) (v : record).

Lemma select_video_stream_app pre post (cur : option record) :
  select_video_stream (pre ++ post) cur =
  cur' ← select_video_stream pre cur; select_video_stream post cur'.
Proof.
  revert cur. induction pre as [|r pre IH]; intros cur; cbn; [done|].
  destruct (r !! "codec_type"); [apply IH | done].
Qed.

Lemma select_video_stream_returns streams (cur : option record) :
  Forall (fun r => is_Some (r !! "codec_type")) streams ->
  returns (select_video_stream streams cur).
Proof.
  intros H. revert cur. induction H as [|r streams [c Hc] _ IH]; intros cur; cbn.
  - by eexists.
  - rewrite Hc. apply IH.
Qed.

Lemma select_video_stream_no_video post (cur : option record) :
  Forall (fun r => is_Some (r !! "codec_type")) post ->
  Forall (fun r => is_video r = false) post ->
  select_video_stream post cur = Ok cur.
Proof.
  intros H. revert cur.
  induction H as [|r post [c Hc] _ IH]; intros cur Hv; cbn; [done|].
  apply Forall_cons in Hv as [Hr Hv]. rewrite Hc.
  unfold is_video in Hr. rewrite Hc in Hr.
  destruct (String.eqb_spec c "video") as [->|_].
  - by rewrite bool_decide_eq_true_2 in Hr.
  - by apply IH.
Qed.

Lemma select_video_stream_last pre post v :
  Forall (fun r => is_Some (r !! "codec_type")) (pre ++ v :: post) ->
  is_video v = true ->
  Forall (fun r => is_video r = false) post ->
  select_video_stream (pre ++ v :: post) None = Ok (Some v).
Proof.
  intros H Hv Hpost.
  apply Forall_app in H as [Hpre H]. apply Forall_cons in H as [_ Hp].
  rewrite select_video_stream_app.
  destruct (select_video_stream_returns pre None Hpre) as [cur ->]. cbn.
  apply bool_decide_eq_true_1 in Hv. rewrite Hv. cbn.
  by apply select_video_stream_no_video.
Qed.

(** C1, as amended: when every stream record carries a [codec_type], the
    record used for the frame-count estimate is the LAST record in
    appearance order whose [codec_type] equals ["video"]; earlier video
    records do not influence the estimate. *)
Theorem C1_last_video_stream_used pre post v (format : option record) :
  Forall (fun r => is_Some (r !! "codec_type")) (pre ++ v :: post) ->
  is_video v = true ->
  Forall (fun r => is_video r = false) post ->
  total_frames (MediaInfo format (pre ++ v :: post)) =
  estimate_nb_frames (Some v) format.
Proof.
  intros H Hv Hpost. unfold total_frames. cbn [stream_info video_info].
  by rewrite (select_video_stream_last pre post v H Hv Hpost).
Qed.

End VideoStream.

Lemma C1_last_of_two_videos :
  total_frames
    (MediaInfo None [Samples.video_a; Samples.video_b; Samples.audio_c]) =
  estimate_nb_frames (Some Samples.video_b) None.
Proof.
  apply (C1_last_video_stream_used [Samples.video_a] [Samples.audio_c]
           Samples.video_b None).
  - repeat constructor; vm_compute; eauto.
  - vm_compute. reflexivity.
  - repeat constructor.
Defined.

(** With two video streams the estimate follows the second one, not the
    first. *)
Lemma C1_first_video_stream_not_used :
  let streams := [Samples.video_a; Samples.video_b] in
  first_video streams = Some Samples.video_a /\
  estimate_nb_frames (Some Samples.video_a) None = Ok 10 /\
  total_frames (MediaInfo None streams) = Ok 20.
Proof. vm_compute. auto. Qed.

(** ** Probe-output parser *)

(** C3: the parser does not survive probe output that ends inside a
    [[STREAM]] block: the [pop(0)] of the inner loop is outside any [try],
    so exhaustion there raises [IndexError] and no implicit end-of-block is
    assumed. *)
Theorem C3_unterminated_block_raises :
  parse_streams Samples.unterminated = Raise IndexError.
Proof. vm_compute. reflexivity. Qed.

(** C6: a line of a block with a second [=] is cut at every [=]; the
    unpacking into [flag, value] then raises [ValueError], and no entry
    [key -> "a=b"] is stored. *)
Theorem C6_second_equals_raises :
  store_field "key=a=b" ∅ = Raise ValueError /\
  parse_streams Samples.two_equals = Raise ValueError.
Proof. split; vm_compute; reflexivity. Qed.

Section Parser.

Implicit Types (buf lines : list string) (line : string) (d : record).

(** One turn of the loop, as an equation. *)
Lemma stream_loop_outside buf line acc :
  String.eqb line "[STREAM]" = false ->
  stream_loop buf None line acc =
  match buf with
  | [] => Ok acc
  | l :: buf' => stream_loop buf' None (strip l) acc
  end.
Proof. intros H. destruct buf; cbn; rewrite H; reflexivity. Qed.

Lemma stream_loop_close buf d line acc :
  String.eqb line "[/STREAM]" = true ->
  stream_loop buf (Some d) line acc =
  match buf with
  | [] => Ok (acc ++ [d])%list
  | l :: buf' => stream_loop buf' None (strip l) (acc ++ [d])%list
  end.
Proof. intros H. destruct buf; cbn; rewrite H; reflexivity. Qed.

Lemma stream_loop_inside buf d line acc :
  String.eqb line "[/STREAM]" = false ->
  stream_loop buf (Some d) line acc =
  d' ← store_field line d;
  match buf with
  | [] => Raise IndexError
  | l :: buf' => stream_loop buf' (Some d') (strip l) acc
  end.
Proof. intros H. destruct buf; cbn; rewrite H; reflexivity. Qed.

Lemma stream_loop_open buf line acc :
  String.eqb line "[STREAM]" = true ->
  stream_loop buf None line acc = stream_loop buf (Some ∅) line acc.
Proof. intros H. destruct buf; cbn; rewrite H; reflexivity. Qed.

Lemma count_blocks_cons inside l buf :
  count_blocks inside (l :: buf) = blocks_from inside (strip l) buf.
Proof. reflexivity. Qed.

Lemma blocks_from_cons inside line l buf :
  blocks_from inside line (l :: buf) =
  if inside then
    if String.eqb line "[/STREAM]" then S (blocks_from false (strip l) buf)
    else blocks_from true (strip l) buf
  else if String.eqb line "[STREAM]" then blocks_from true (strip l) buf
  else blocks_from false (strip l) buf.
Proof. reflexivity. Qed.

Lemma stream_loop_count buf :
  forall (cur : option record) line acc recs,
    stream_loop buf cur line acc = Ok recs ->
    length recs = (length acc + blocks_from (in_block cur) line buf)%nat.
Proof.
  induction buf as [|l buf IH]; intros cur line acc recs.
  - destruct cur as [d|]; cbn [in_block].
    + destruct (String.eqb line "[/STREAM]") eqn:Hc.
      * rewrite stream_loop_close by done. intros [= <-].
        unfold blocks_from. rewrite Hc, length_app. cbn. lia.
      * rewrite stream_loop_inside by done.
        destruct (store_field line d); cbn; discriminate.
    + destruct (String.eqb line "[STREAM]") eqn:Ho.
      * rewrite stream_loop_open by done.
        apply String.eqb_eq in Ho as ->.
        rewrite stream_loop_inside by reflexivity. cbn. discriminate.
      * rewrite stream_loop_outside by done. intros [= <-].
        unfold blocks_from. rewrite Ho. cbn. lia.
  - destruct cur as [d|]; cbn [in_block]; rewrite blocks_from_cons.
    + destruct (String.eqb line "[/STREAM]") eqn:Hc.
      * rewrite stream_loop_close by done. intros H.
        apply IH in H. rewrite H, length_app. cbn. lia.
      * rewrite stream_loop_inside by done.
        destruct (store_field line d) as [d'|e]; cbn; [|discriminate].
        intros H. apply IH in H. by rewrite H.
    + destruct (String.eqb line "[STREAM]") eqn:Ho.
      * rewrite stream_loop_open by done.
        apply String.eqb_eq in Ho as ->.
        rewrite stream_loop_inside by reflexivity. cbn.
        intros H. apply IH in H. by rewrite H.
      * rewrite stream_loop_outside by done.
        intros H. apply IH in H. by rewrite H.
Qed.

(** Whenever the [STREAM] loop returns, it returns one record for each
    closed block of its input. *)
Lemma parse_streams_count lines recs :
  parse_streams lines = Ok recs ->
  length recs = count_blocks false lines.
Proof.
  destruct lines as [|l buf]; [discriminate|]. cbn [parse_streams pop0].
  intros H. change (stream_loop buf None (strip l) [] = Ok recs) in H.
  apply stream_loop_count in H. rewrite H, count_blocks_cons. reflexivity.
Qed.

(** Input that stops inside a block makes the loop raise. *)
Lemma stream_loop_unterminated buf :
  forall (cur : option record) line acc,
    ends_inside_from (in_block cur) line buf = true ->
    raises (stream_loop buf cur line acc).
Proof.
  unfold ends_inside_from.
  induction buf as [|l buf IH]; intros cur line acc; cbn [ends_inside].
  - destruct cur as [d|]; cbn [in_block].
    + destruct (String.eqb line "[/STREAM]") eqn:Hc; [discriminate|].
      intros _. rewrite stream_loop_inside by done.
      destruct (store_field line d); cbn; by eexists.
    + intros Ho. rewrite stream_loop_open by done.
      apply String.eqb_eq in Ho as ->.
      rewrite stream_loop_inside by reflexivity. cbn. by eexists.
  - destruct cur as [d|]; cbn [in_block].
    + destruct (String.eqb line "[/STREAM]") eqn:Hc; cbn [negb].
      * rewrite stream_loop_close by done. apply (IH None).
      * rewrite stream_loop_inside by done.
        destruct (store_field line d) as [d'|e]; cbn; [|by eexists].
        apply (IH (Some d')).
    + destruct (String.eqb line "[STREAM]") eqn:Ho.
      * rewrite stream_loop_open by done.
        apply String.eqb_eq in Ho as ->.
        rewrite stream_loop_inside by reflexivity. cbn.
        apply (IH (Some ∅)).
      * rewrite stream_loop_outside by done. apply (IH None).
Qed.

(** Every probe output with a trailing unterminated block makes
    [get_video_info] raise. *)
Lemma parse_streams_unterminated lines :
  ends_inside false lines = true -> raises (parse_streams lines).
Proof.
  destruct lines as [|l buf]; [discriminate|]. cbn [ends_inside].
  intros H. apply (stream_loop_unterminated buf None (strip l) [] H).
Qed.

(** *** Lines of a block *)

Lemma split_without c s : contains c s = false -> split c s = [s].
Proof.
  induction s as [|a s IH]; cbn [split contains]; [done|].
  destruct (Ascii.eqb a c); [discriminate|].
  intros H. by rewrite (IH H).
Qed.

Lemma append_empty s : EmptyString +:+ s = s.
Proof. reflexivity. Qed.

Lemma append_String a k s : String a k +:+ s = String a (k +:+ s).
Proof. reflexivity. Qed.

Lemma split_first c k v :
  contains c k = false -> split c (k +:+ String c v) = k :: split c v.
Proof.
  induction k as [|a k IH];
    rewrite ?append_empty, ?append_String; cbn [split contains].
  - by rewrite Ascii.eqb_refl.
  - destruct (Ascii.eqb a c); [discriminate|].
    intros H. by rewrite (IH H).
Qed.

Lemma split_with c s :
  contains c s = true -> exists a b t, split c s = a :: b :: t.
Proof.
  induction s as [|x s IH]; cbn [split contains]; [discriminate|].
  destruct (Ascii.eqb x c).
  - intros _. destruct s as [|y s]; cbn [split]; [by eexists _, _, _|].
    destruct (Ascii.eqb y c); [by eexists _, _, _|].
    destruct (split c s); by eexists _, _, _.
  - intros H. destruct (IH H) as (a & b & t & ->). by eexists _, _, _.
Qed.

Lemma contains_first c k v : contains c (k +:+ String c v) = true.
Proof.
  induction k as [|a k IH];
    rewrite ?append_empty, ?append_String; cbn [contains].
  - by rewrite Ascii.eqb_refl.
  - by destruct (Ascii.eqb a c).
Qed.

(** A line with exactly one [=] is stored as key and value. *)
Lemma store_field_one_equals k v d :
  contains "=" k = false -> contains "=" v = false ->
  store_field (k +:+ String "=" v) d = Ok (<[ k := v ]> d).
Proof.
  intros Hk Hv. unfold store_field.
  by rewrite contains_first, split_first, (split_without _ v).
Qed.

(** A line with a second [=] is not stored: the unpacking raises. *)
Lemma store_field_more_equals k v d :
  contains "=" k = false -> contains "=" v = true ->
  store_field (k +:+ String "=" v) d = Raise ValueError.
Proof.
  intros Hk Hv. unfold store_field.
  rewrite contains_first, split_first by done.
  by destruct (split_with _ _ Hv) as (a & b & t & ->).
Qed.

End Parser.

(** ** Frame-count estimate *)

(** C4: the estimate raises on well-formed video stream records.  When
    stream and container both report the duration as ["N/A"], the fallback
    [float(video_info.get('duration', 1))] raises [ValueError]; when
    [r_frame_rate] holds a plain number the string is never converted and
    [duration * frame_rate] raises [TypeError]; a rate of ["0/0"] raises
    [ZeroDivisionError]. *)
Theorem C4_estimate_raises :
  estimate_nb_frames (Some Samples.raw_stream) (Some Samples.raw_format) =
    Raise ValueError /\
  estimate_nb_frames (Some Samples.plain_rate) (Some ∅) = Raise TypeError /\
  estimate_nb_frames (Some Samples.zero_rate) (Some ∅) =
    Raise ZeroDivisionError.
Proof. repeat split; vm_compute; reflexivity. Qed.

(** A negative [nb_frames] is passed on as it is. *)
Lemma estimate_nb_frames_negative :
  estimate_nb_frames (Some Samples.negative_count) (Some ∅) = Ok (-5).
Proof. vm_compute. reflexivity. Qed.

(** ** Option sets of the converters *)

Section Converter.

Import Convert.

Variable web_video_bitrate : Z.





End Converter.


(** ** Link chains *)

Section Linker.

Variable E : env.

Implicit Types (w : world) (h : list link) (o : outcome).

(** [l.thumbnail = t] as a function on [Link] objects *)
Local Abbreviation attach t :=
  (fun x => Link (full_path x) (original_filename x) (Some t)).

(** Where a derivative ends up. *)
Local Abbreviation destination p base folder temp :=
  (Path.join (Path.join (Path.dirname p) folder)
     (base +:+ (Path.splitext temp).2)).

Lemma thumbnail_of_fresh h p name ext :
  thumbnail_of (h ++ Link p name None :: ext) (length h) = None.
Proof.
  unfold thumbnail_of. rewrite lookup_app_r by lia.
  by rewrite Nat.sub_diag.
Qed.

Lemma thumbnail_of_attach_eq h l t :
  (l < length h)%nat -> thumbnail_of (alter (attach t) l h) l = Some t.
Proof.
  intros Hl. unfold thumbnail_of.
  destruct (lookup_lt_is_Some_2 h l Hl) as [x Hx].
  by rewrite list_lookup_alter_eq, Hx.
Qed.

Lemma thumbnail_of_attach_ne h l l' t :
  l <> l' -> thumbnail_of (alter (attach t) l h) l' = thumbnail_of h l'.
Proof.
  intros Hl. unfold thumbnail_of. by rewrite list_lookup_alter_ne.
Qed.

Lemma chain_end h n l : thumbnail_of h l = None -> chain h n l = [l].
Proof. intros H. destruct n; cbn; [done | by rewrite H]. Qed.

Lemma chain_step h n l t :
  thumbnail_of h l = Some t -> chain h (S n) l = l :: chain h n t.
Proof. intros H. cbn. by rewrite H. Qed.

(** *** One stage of [upload_version_output] *)

Lemma stage_produced temp p base folder filename w :
  derivative_stage E (run_generator (Produced temp true)) p base folder
    filename w =
  (Ok (Some (length (heap w))),
   World ({[ destination p base folder temp ]} ∪ ({[ temp ]} ∪ fs w) ∖ {[ temp ]})
     (heap w ++
        [Link (to_os_independent_path E (destination p base folder temp))
           filename None])
     (collection w)).
Proof.
  unfold derivative_stage, run_generator, new_link, move. cbn.
  rewrite bool_decide_eq_true_2 by set_solver. reflexivity.
Qed.

Lemma stage_runtime_error p base folder filename w :
  derivative_stage E (run_generator (Failed RuntimeError)) p base folder
    filename w = (Ok None, w).
Proof. reflexivity. Qed.

Lemma stage_other_error e p base folder filename w :
  e <> RuntimeError ->
  derivative_stage E (run_generator (Failed e)) p base folder filename w =
  (Raise e, w).
Proof. intros He. destruct e; try reflexivity. by destruct He. Qed.

(** A stage that ends normally leaves the old [Link] objects alone and adds
    at most one, which has no thumbnail. *)
Lemma stage_heap o p base folder filename w r w' :
  derivative_stage E (run_generator o) p base folder filename w = (Ok r, w') ->
  collection w' = collection w /\
  match r with
  | Some l => l = length (heap w) /\
              exists q, heap w' = (heap w ++ [Link q filename None])%list
  | None => heap w' = heap w
  end.
Proof.
  destruct o as [temp [|]|e].
  - rewrite stage_produced. intros [= <- <-]. cbn. eauto.
  - unfold derivative_stage, run_generator, new_link, move. cbn.
    case_bool_decide; intros [= <- <-]; cbn. eauto.
  - destruct e; cbn; intros [= <- <-]; done.
Qed.

(** *** The linking block *)

Lemma link_objects_no_web link (tl : option nat) w :
  link_objects link None tl w =
  (Ok link, World (fs w) (heap w) (collection w ++ [link])).
Proof. reflexivity. Qed.

Lemma link_objects_web_only link wl w :
  link_objects link (Some wl) None w =
  (Ok link,
   World (fs w) (alter (attach wl) link (heap w)) (collection w ++ [link])).
Proof. reflexivity. Qed.

Lemma link_objects_all link wl tl w :
  link_objects link (Some wl) (Some tl) w =
  (Ok link,
   World (fs w) (alter (attach tl) wl (alter (attach wl) link (heap w)))
     (collection w ++ [link])).
Proof. reflexivity. Qed.

End Linker.

(** *** Version outputs *)

Section VersionOutput.

Variable E : env.
Variables version_absolute_path filename : string.
Variable w : world.

(** The uploaded file, the index of the root [Link] and the base name
    shared by the derivatives. *)
Let uploaded : string :=
  upload_file E (Path.join version_absolute_path version_output_path) filename.
Let root : nat := length (heap w).
Let base : string := (Path.splitext (Path.basename uploaded)).1.

Local Abbreviation attach t :=
  (fun x => Link (full_path x) (original_filename x) (Some t)).

(** The upload up to the two stages, as one equation. *)
Lemma upload_version_output_unfold :
  upload_version_output E version_absolute_path filename w =
  let w1 :=
    World ({[ uploaded ]} ∪ fs w)
      (heap w ++ [Link (to_os_independent_path E uploaded) filename None])
      (collection w) in
  match derivative_stage E (generate_media_for_web E uploaded) uploaded base
          "ForWeb" filename w1 with
  | (Ok web_version_link, w2) =>
      match derivative_stage E (generate_thumbnail E uploaded) uploaded base
              "Thumbnail" filename w2 with
      | (Ok thumbnail_link, w3) =>
          link_objects root web_version_link thumbnail_link w3
      | (Raise e, w3) => (Raise e, w3)
      end
  | (Raise e, w2) => (Raise e, w2)
  end.
Proof.
  unfold upload_version_output, seq, do_upload, new_link.
  cbv zeta. cbn [heap fs collection].
  destruct (derivative_stage _ _ _ _ _ _ _) as [[wl|e] w2]; [|reflexivity].
  destruct (derivative_stage _ _ _ _ _ _ _) as [[tl|e] w3]; reflexivity.
Qed.

End VersionOutput.

Section PartialFailure.

Variable E : env.
Variables version_absolute_path filename : string.
Variable w : world.

Local Abbreviation uploaded :=
  (upload_file E (Path.join version_absolute_path version_output_path)
     filename).
Local Abbreviation root := (length (heap w)).
Local Abbreviation attach t :=
  (fun x => Link (full_path x) (original_filename x) (Some t)).

Ltac lengths := rewrite ?length_alter, ?length_app; cbn [length]; lia.

(** Both derivatives absorbed: the upload returns the root, appended to
    the parent collection, above the chain of the derivatives that exist. *)
Lemma upload_version_output_absorbed :
  absorbed (web_outcome E uploaded) ->
  absorbed (thumbnail_outcome E uploaded) ->
  exists w',
    upload_version_output E version_absolute_path filename w = (Ok root, w') /\
    collection w' = (collection w ++ [root])%list /\
    chain (heap w') 2 root =
    expected_chain root (web_outcome E uploaded) (thumbnail_outcome E uploaded).
Proof.
  intros Hweb Hthumb. rewrite upload_version_output_unfold. cbv zeta.
  unfold generate_media_for_web, generate_thumbnail, expected_chain.
  destruct (web_outcome E uploaded) as [t1 [|]|[]]; try done;
    destruct (thumbnail_outcome E uploaded) as [t2 [|]|[]]; try done;
    rewrite ?stage_produced, ?stage_runtime_error;
    cbn [heap fs collection];
    rewrite ?stage_produced, ?stage_runtime_error;
    cbn [heap fs collection produced].
  - rewrite link_objects_all. eexists; split; [reflexivity|].
    cbn [heap collection]. split; [reflexivity|].
    erewrite chain_step; cycle 1.
    { rewrite thumbnail_of_attach_ne by lengths.
      apply thumbnail_of_attach_eq. lengths. }
    erewrite chain_step; cycle 1.
    { apply thumbnail_of_attach_eq. lengths. }
    cbn [chain]. repeat f_equal; lengths.
  - rewrite link_objects_web_only. eexists; split; [reflexivity|].
    cbn [heap collection]. split; [reflexivity|].
    erewrite chain_step; cycle 1.
    { apply thumbnail_of_attach_eq. lengths. }
    rewrite chain_end.
    + repeat f_equal; lengths.
    + rewrite thumbnail_of_attach_ne by lengths.
      apply thumbnail_of_fresh.
  - rewrite link_objects_no_web. eexists; split; [reflexivity|].
    cbn [heap collection]. split; [reflexivity|].
    apply chain_end. rewrite <- app_assoc. apply thumbnail_of_fresh.
  - rewrite link_objects_no_web. eexists; split; [reflexivity|].
    cbn [heap collection]. split; [reflexivity|].
    apply chain_end. apply thumbnail_of_fresh.
Qed.

(** Any other exception of the web stage leaves the upload. *)
Lemma upload_version_output_web_raises e :
  e <> RuntimeError ->
  web_outcome E uploaded = Failed e ->
  exists w',
    upload_version_output E version_absolute_path filename w = (Raise e, w') /\
    collection w' = collection w.
Proof.
  intros He Hweb. rewrite upload_version_output_unfold. cbv zeta.
  unfold generate_media_for_web. rewrite Hweb.
  rewrite stage_other_error by done. eauto.
Qed.

(** The same for the thumbnail stage, whatever became of the web version. *)
Lemma upload_version_output_thumbnail_raises e :
  e <> RuntimeError ->
  absorbed (web_outcome E uploaded) ->
  thumbnail_outcome E uploaded = Failed e ->
  exists w',
    upload_version_output E version_absolute_path filename w = (Raise e, w') /\
    collection w' = collection w.
Proof.
  intros He Hweb Hthumb. rewrite upload_version_output_unfold. cbv zeta.
  unfold generate_media_for_web, generate_thumbnail. rewrite Hthumb.
  destruct (web_outcome E uploaded) as [t1 [|]|[]]; try done;
    rewrite ?stage_produced, ?stage_runtime_error;
    cbn [heap fs collection];
    rewrite stage_other_error by done; eauto.
Qed.

End PartialFailure.

Section Reference.

Variable E : env.
Variables task_absolute_path filename : string.
Variable w : world.

Local Abbreviation uploaded :=
  (upload_file E (Path.join task_absolute_path reference_path) filename).

(** [upload_reference] has no handler: what the web stage raises leaves
    the upload, before the root joins the references of the task. *)
Lemma upload_reference_web_raises e :
  web_outcome E uploaded = Failed e ->
  exists w',
    upload_reference E task_absolute_path filename w = (Raise e, w') /\
    collection w' = collection w.
Proof.
  intros Hweb.
  unfold upload_reference, seq, do_upload, new_link, generate_media_for_web.
  cbv zeta. rewrite Hweb. cbn [run_generator heap fs collection]. eauto.
Qed.

(** The same for the thumbnail stage. *)
Lemma upload_reference_thumbnail_raises temp e :
  web_outcome E uploaded = Produced temp true ->
  thumbnail_outcome E uploaded = Failed e ->
  exists w',
    upload_reference E task_absolute_path filename w = (Raise e, w') /\
    collection w' = collection w.
Proof.
  intros Hweb Hthumb.
  unfold upload_reference, seq, do_upload, new_link, generate_media_for_web,
    generate_thumbnail, move.
  cbv zeta. rewrite Hweb. cbn [run_generator heap fs collection].
  rewrite bool_decide_eq_true_2 by set_solver.
  cbn [heap fs collection]. rewrite Hthumb.
  cbn [run_generator heap fs collection]. eauto.
Qed.

End Reference.

(** C5, as amended: during version-output upload a [RuntimeError] raised
    while generating the web version or the thumbnail is caught per stage:
    the upload completes, the derivative is absent and the chain below the
    root is shorter.  An exception of any other kind, raised while
    generating the web version or while generating the thumbnail, leaves
    [upload_version_output] before the root joins the outputs of the
    version. *)
Theorem C5_runtime_errors_absorbed_for_version_outputs (E : env)
    (absolute_path filename : string) (w : world) :
  let version_file :=
    upload_file E (Path.join absolute_path version_output_path) filename in
  (absorbed (web_outcome E version_file) ->
   absorbed (thumbnail_outcome E version_file) ->
   exists w',
     upload_version_output E absolute_path filename w =
       (Ok (length (heap w)), w') /\
     collection w' = (collection w ++ [length (heap w)])%list /\
     chain (heap w') 2 (length (heap w)) =
     expected_chain (length (heap w)) (web_outcome E version_file)
       (thumbnail_outcome E version_file)) /\
  (forall e, e <> RuntimeError ->
     web_outcome E version_file = Failed e ->
     exists w',
       upload_version_output E absolute_path filename w = (Raise e, w') /\
       collection w' = collection w) /\
  (forall e, e <> RuntimeError ->
     absorbed (web_outcome E version_file) ->
     thumbnail_outcome E version_file = Failed e ->
     exists w',
       upload_version_output E absolute_path filename w = (Raise e, w') /\
       collection w' = collection w).
Proof.
  intros version_file. split; [|split].
  - apply upload_version_output_absorbed.
  - apply upload_version_output_web_raises.
  - apply upload_version_output_thumbnail_raises.
Qed.

Lemma C5_text_file_as_version_output :
  exists w',
    upload_version_output Samples.all_good "/proj/v1" "notes.txt"
      Samples.empty_world = (Ok O, w') /\
    collection w' = [O] /\
    chain (heap w') 2 O = [O].
Proof.
  apply (proj1 (C5_runtime_errors_absorbed_for_version_outputs
                  Samples.all_good "/proj/v1" "notes.txt" Samples.empty_world));
    vm_compute; exact I.
Defined.

(** A video without a video stream uploaded as a version output: the
    web version is made, the thumbnail stage raises [AttributeError], and
    the upload ends with it instead of completing with a shorter chain; the
    root does not reach the outputs of the version. *)
Lemma C5_upload_fails_as_a_whole :
  let output :=
    upload_version_output Samples.no_video_stream "/proj/v1" "clip.mov"
      Samples.empty_world in
  web_outcome Samples.no_video_stream
    (upload_file Samples.no_video_stream
       (Path.join "/proj/v1" version_output_path) "clip.mov") =
    Produced "/tmp/web.webm" true /\
  thumbnail_outcome Samples.no_video_stream
    (upload_file Samples.no_video_stream
       (Path.join "/proj/v1" version_output_path) "clip.mov") =
    Failed AttributeError /\
  output.1 = Raise AttributeError /\ collection output.2 = [].
Proof. vm_compute. auto. Qed.

(** [upload_reference] has no handler at all: a text file uploaded as a
    reference ends the upload with the [RuntimeError] that
    [upload_version_output] absorbs. *)
Lemma upload_reference_text_file_raises :
  let reference :=
    upload_reference Samples.all_good "/proj/t1" "notes.txt"
      Samples.empty_world in
  reference.1 = Raise RuntimeError /\ collection reference.2 = [].
Proof. vm_compute. auto. Qed.

(** C10: in [upload_version_output] a thumbnail is attached only below a
    web version.  When the web stage gave up ([web_version_link] is
    [None]) the returned root has no thumbnail reference, and a thumbnail
    [Link] that was created all the same is not reachable from the root. *)
Theorem C10_thumbnail_only_below_web_version (E : env)
    (version_absolute_path filename : string) (w : world) :
  let version_file :=
    upload_file E (Path.join version_absolute_path version_output_path)
      filename in
  let root := length (heap w) in
  web_outcome E version_file = Failed RuntimeError ->
  (forall r w',
     upload_version_output E version_absolute_path filename w = (Ok r, w') ->
     r = root /\ thumbnail_of (heap w') root = None /\
     forall n, chain (heap w') n root = [root]) /\
  (forall temp,
     thumbnail_outcome E version_file = Produced temp true ->
     exists w' l,
       upload_version_output E version_absolute_path filename w =
         (Ok root, w') /\
       heap w' !! S root = Some l /\
       original_filename l = filename /\
       forall n, S root ∉ chain (heap w') n root).
Proof.
  intros version_file root Hweb.
  rewrite upload_version_output_unfold. cbv zeta.
  unfold generate_media_for_web, generate_thumbnail.
  fold version_file. rewrite Hweb, stage_runtime_error. split.
  - intros r w'.
    destruct (derivative_stage _ _ _ _ _ _ _) as [[tl|e] w3] eqn:Hstage;
      [|discriminate].
    apply stage_heap in Hstage as [_ Hheap]. cbn [heap] in Hheap.
    rewrite link_objects_no_web. intros [= <- <-]. cbn [heap].
    assert (thumbnail_of (heap w3) root = None) as Hnone.
    { destruct tl as [tl|].
      - destruct Hheap as [_ [q ->]]. rewrite <- app_assoc.
        apply thumbnail_of_fresh.
      - rewrite Hheap. apply thumbnail_of_fresh. }
    split; [done|]. split; [done|]. intros n. by apply chain_end.
  - intros temp Hthumb. rewrite Hthumb, stage_produced.
    rewrite link_objects_no_web. cbn [heap fs collection].
    eexists _, _. split; [reflexivity|]. cbn [heap]. split; [|split].
    + rewrite lookup_app_r by (rewrite length_app; cbn; lia).
      rewrite length_app. cbn [length]. subst root.
      replace (S (length (heap w)) - (length (heap w) + 1))%nat with O by lia.
      reflexivity.
    + reflexivity.
    + intros n. rewrite chain_end.
      * rewrite list_elem_of_singleton. lia.
      * rewrite <- app_assoc. apply thumbnail_of_fresh.
Qed.

Lemma C10_thumbnail_created_but_unreachable :
  exists w' l,
    upload_version_output Samples.web_fails "/proj/v1" "shot.png"
      Samples.empty_world = (Ok O, w') /\
    heap w' !! 1%nat = Some l /\
    original_filename l = "shot.png" /\
    forall n, 1%nat ∉ chain (heap w') n O.
Proof.
  apply (proj2 (C10_thumbnail_only_below_web_version Samples.web_fails
                  "/proj/v1" "shot.png" Samples.empty_world eq_refl)
           "/tmp/thumb.jpg").
  vm_compute. reflexivity.
Defined.

(** ** Further facts on the frame-count estimate *)

(** A usable [nb_frames] is the result, whatever rate and duration say. *)
Lemma estimate_nb_frames_direct (vs : record) (format : option record)
    (nb_frames : string) :
  vs !! "nb_frames" = Some nb_frames ->
  String.eqb nb_frames "N/A" = false ->
  estimate_nb_frames (Some vs) format = int_of_str nb_frames.
Proof.
  intros Hnb Hna. unfold estimate_nb_frames, dict_get. cbn [deref].
  change (Ok vs ≫= ?k) with (k vs). cbv beta.
  rewrite Hnb. cbn [is_none is_str orb]. rewrite Hna. reflexivity.
Qed.

(** The examples of the specification: 24/1 for 10 seconds is 240 frames,
    the default rate for one second is 23 frames. *)
Lemma estimate_nb_frames_examples :
  estimate_nb_frames (Some Samples.ratio_rate) None = Ok 240 /\
  estimate_nb_frames (Some Samples.no_rate) (Some ∅) = Ok 23.
Proof. split; vm_compute; reflexivity. Qed.

(** ** The general facts at sample inputs *)

Lemma parse_streams_count_two_blocks :
  length [ ({[ "codec_type" := "video" ]} : record);
           ({[ "codec_type" := "audio" ]} : record) ] =
  count_blocks false Samples.two_blocks.
Proof.
  apply (parse_streams_count Samples.two_blocks).
  vm_compute. reflexivity.
Defined.

Lemma parse_streams_unterminated_sample :
  raises (parse_streams Samples.unterminated).
Proof.
  apply (parse_streams_unterminated Samples.unterminated).
  vm_compute. reflexivity.
Defined.

Lemma store_field_codec_type :
  store_field ("codec_type" +:+ String "=" "video") ∅ =
  Ok (<[ "codec_type" := "video" ]> ∅).
Proof.
  apply (store_field_one_equals "codec_type" "video" ∅); reflexivity.
Defined.

Lemma store_field_key_a_b :
  store_field ("key" +:+ String "=" "a=b") ∅ = Raise ValueError.
Proof.
  apply (store_field_more_equals "key" "a=b" ∅); reflexivity.
Defined.

Lemma estimate_nb_frames_counted :
  estimate_nb_frames (Some Samples.counted) None = int_of_str "120".
Proof.
  apply (estimate_nb_frames_direct Samples.counted None "120");
    vm_compute; reflexivity.
Defined.


(** ** Common prefixes and relative paths *)

Section CommonPrefix.

Context {A : Type} `{EqDecision A}.

Implicit Types (x : A) (l p common first : list A)
  (rest sequences : list (list A)).

Lemma all_equal_loop_true x l :
  all_equal_loop x l = true <-> Forall (fun y => y = x) l.
Proof.
  induction l as [|y l IH]; cbn.
  - split; [constructor | done].
  - case_bool_decide as Hy.
    + split; [done|]. intros H. apply Forall_cons in H as [? _]. done.
    + rewrite IH, Forall_cons. split; [by intros ? | by intros [_ ?]].
Qed.

(** [all_equal] raises on the empty sequence and otherwise says whether
    every element equals the first one. *)
Lemma all_equal_spec (elements : list A) :
  match elements with
  | [] => all_equal elements = Raise IndexError
  | x :: others =>
      exists b, all_equal elements = Ok b /\
                (b = true <-> Forall (fun y => y = x) elements)
  end.
Proof.
  destruct elements as [|x others]; [done|].
  eexists; split; [reflexivity|].
  rewrite all_equal_loop_true, Forall_cons. split; [by intros ? | by intros [_ ?]].
Qed.

Lemma heads_None rest : heads rest = None -> [] ∈ rest.
Proof.
  induction rest as [|[|x s] rest IH]; cbn; [done | | ].
  - intros _. apply list_elem_of_here.
  - destruct (heads rest); [done|]. intros _.
    apply list_elem_of_further, IH. done.
Qed.

Lemma heads_Some rest hs :
  heads rest = Some hs -> Forall2 (fun s h => s = h :: drop 1 s) rest hs.
Proof.
  revert hs. induction rest as [|[|x s] rest IH]; intros hs; cbn.
  - intros [= <-]. constructor.
  - done.
  - destruct (heads rest) as [hs'|]; [|done]. intros [= <-].
    constructor; [done | by apply IH].
Qed.

Lemma heads_all_equal rest hs x :
  heads rest = Some hs ->
  (Forall (fun y => y = x) hs <-> Forall (fun s => s = x :: drop 1 s) rest).
Proof.
  intros H. apply heads_Some in H.
  induction H as [|s h rest hs Hs _ IH].
  - split; constructor.
  - rewrite !Forall_cons, IH. split.
    + intros [-> ?]. done.
    + intros [Hx ?]. split; [|done]. rewrite Hx in Hs. by injection Hs.
Qed.

(** The loop over the tuples finds the longest list that starts every
    sequence. *)
Lemma common_loop_izip first :
  forall rest (acc : list A),
  exists c,
    common_loop (izip_from first rest) acc = Ok (acc ++ c)%list /\
    c `prefix_of` first /\
    Forall (fun s => c `prefix_of` s) rest /\
    forall p, p `prefix_of` first -> Forall (fun s => p `prefix_of` s) rest ->
              p `prefix_of` c.
Proof.
  induction first as [|x first IH]; intros rest acc; cbn [izip_from].
  - exists []. cbn. rewrite app_nil_r. repeat split; [done | | done].
    apply Forall_forall. intros s _. apply prefix_nil.
  - destruct (heads rest) as [hs|] eqn:Hheads.
    + cbn [common_loop all_equal]. change (Ok ?b ≫= ?k) with (k b). cbv beta.
      destruct (all_equal_loop x hs) eqn:Heq; cbn [negb].
      * apply all_equal_loop_true in Heq.
        apply (heads_all_equal _ _ _ Hheads) in Heq.
        destruct (IH (map (drop 1) rest) (acc ++ [x])%list)
          as (c & Hc & Hfirst & Hrest & Hmax).
        exists (x :: c). rewrite Hc, <- app_assoc. split; [done|].
        split; [by apply prefix_cons|]. split.
        -- rewrite Forall_map in Hrest.
           eapply Forall_impl; [apply Forall_and; split; [exact Heq | exact Hrest]|].
           cbn. intros s [-> Hs]. by apply prefix_cons.
        -- intros [|y p] Hp Hall; [apply prefix_nil|].
           pose proof (prefix_cons_inv_1 _ _ _ _ Hp) as ->.
           apply prefix_cons_inv_2 in Hp. apply prefix_cons, Hmax; [done|].
           rewrite Forall_map.
           eapply Forall_impl; [apply Forall_and; split; [exact Heq | exact Hall]|].
           cbn. intros s [-> Hs]. by apply prefix_cons_inv_2 in Hs.
      * exists []. rewrite app_nil_r. repeat split; [apply prefix_nil | |].
        { apply Forall_forall. intros s _. apply prefix_nil. }
        intros [|y p] Hp Hall; [done|].
        pose proof (prefix_cons_inv_1 _ _ _ _ Hp) as ->.
        assert (all_equal_loop x hs = true) as Htrue; [|congruence].
        apply all_equal_loop_true, (heads_all_equal _ _ _ Hheads).
        eapply Forall_impl; [exact Hall|].
        intros s [k ->]. reflexivity.
    + exists []. cbn. rewrite app_nil_r. repeat split; [apply prefix_nil | |].
      { apply Forall_forall. intros s _. apply prefix_nil. }
      intros p _ Hall. apply heads_None in Hheads.
      rewrite Forall_forall in Hall. exact (Hall _ Hheads).
Qed.

End CommonPrefix.

Section CommonPrefixResult.

Context {A : Type} `{EqDecision A}.

Implicit Types (p common : list A) (sequences tails : list (list A)).

Lemma common_prefix_spec sequences :
  exists common,
    common_prefix sequences =
      Ok (common, map (drop (length common)) sequences) /\
    Forall (fun s => common `prefix_of` s) sequences /\
    (sequences <> [] ->
     forall p, Forall (fun s => p `prefix_of` s) sequences ->
               p `prefix_of` common).
Proof.
  destruct sequences as [|first rest].
  - exists []. repeat split; [constructor | done].
  - destruct (common_loop_izip first rest []) as (c & Hc & Hfirst & Hrest & Hmax).
    exists c. unfold common_prefix. cbn [izip]. rewrite Hc. cbn.
    repeat split.
    + by constructor.
    + intros _ p Hp. apply Forall_cons in Hp as [? ?]. by apply Hmax.
Qed.

(** [common_prefix] never raises, and every sequence is the common prefix
    followed by its own tail. *)
Theorem common_prefix_round_trip sequences :
  exists common tails,
    common_prefix sequences = Ok (common, tails) /\
    Forall2 (fun s t => s = (common ++ t)%list) sequences tails.
Proof.
  destruct (common_prefix_spec sequences) as (common & Heq & Hpre & _).
  exists common, (map (drop (length common)) sequences). split; [done|].
  apply Forall2_fmap_r, Forall_Forall2_diag.
  eapply Forall_impl; [exact Hpre|]. cbn. intros s [k ->].
  by rewrite drop_app_length.
Qed.

(** The prefix returned by [common_prefix] is the longest one: every list
    that starts all the sequences starts the returned prefix. *)
Theorem common_prefix_longest sequences common tails p :
  sequences <> [] ->
  common_prefix sequences = Ok (common, tails) ->
  Forall (fun s => p `prefix_of` s) sequences ->
  p `prefix_of` common.
Proof.
  intros Hne Heq Hp.
  destruct (common_prefix_spec sequences) as (c & Hc & _ & Hmax).
  rewrite Hc in Heq. injection Heq as <- _. by apply Hmax.
Qed.

(** Two sequences that agree on [c] and differ right after it. *)
Lemma common_prefix_fork (c u1 u2 : list A) :
  match u1, u2 with
  | a :: _, b :: _ => a <> b
  | _, _ => True
  end ->
  common_prefix [(c ++ u1)%list; (c ++ u2)%list] = Ok (c, [u1; u2]).
Proof.
  intros Hfork.
  destruct (common_prefix_spec [(c ++ u1)%list; (c ++ u2)%list])
    as (common & Heq & Hpre & Hmax).
  rewrite Heq.
  assert (common = c) as ->; [|cbn; by rewrite !drop_app_length].
  apply (anti_symm prefix).
  - apply Forall_cons in Hpre as [H1 Hpre]. apply Forall_cons in Hpre as [H2 _].
    destruct (prefix_weak_total _ _ _ H1 (prefix_app_r c c u1 (reflexivity c)))
      as [Hle|Hle]; [done|].
    destruct Hle as [k ->]. destruct k as [|y k]; [by rewrite app_nil_r|].
    exfalso. apply prefix_app_inv in H1, H2.
    destruct u1 as [|a u1]; [by apply prefix_nil_inv in H1|].
    destruct u2 as [|b u2]; [by apply prefix_nil_inv in H2|].
    cbn in H1, H2. apply prefix_cons_inv_1 in H1, H2. congruence.
  - apply Hmax; [done|]. repeat constructor; by apply prefix_app_r.
Qed.

End CommonPrefixResult.

Lemma common_prefix_longest_numbers :
  [1; 2]%nat `prefix_of` [1; 2]%nat.
Proof.
  apply (common_prefix_longest [[1; 2; 3]; [1; 2; 4; 5]; [1; 2]]%nat
           [1; 2]%nat [[3]; [4; 5]; []]%nat [1; 2]%nat).
  - discriminate.
  - vm_compute. reflexivity.
  - repeat constructor; by eexists.
Defined.

Section RelativePaths.

Implicit Types (p rest pardir : string) (sep : ascii)
  (c u : list string).

Lemma split_nonempty sep p : split sep p <> [].
Proof.
  destruct p as [|a p]; cbn [split]; [done|].
  destruct (Ascii.eqb a sep); [done|]. by destruct (split sep p).
Qed.

Lemma split_app sep p rest :
  split sep (p +:+ String sep rest) = (split sep p ++ split sep rest)%list.
Proof.
  induction p as [|a p IH]; rewrite ?append_empty, ?append_String;
    cbn [split].
  - by rewrite Ascii.eqb_refl.
  - rewrite IH. destruct (Ascii.eqb a sep); [done|].
    pose proof (split_nonempty sep p). by destruct (split sep p).
Qed.

Lemma str_join_cons (sep' h : string) (t : list string) :
  t <> [] -> str_join sep' (h :: t) = h +:+ sep' +:+ str_join sep' t.
Proof. by destruct t. Qed.

Lemma str_join_split sep p :
  str_join (String sep EmptyString) (split sep p) = p.
Proof.
  induction p as [|a p IH]; cbn [split]; [done|].
  pose proof (split_nonempty sep p) as Hne.
  destruct (Ascii.eqb_spec a sep) as [->|_].
  - rewrite str_join_cons by done.
    by rewrite IH, append_empty, append_String, append_empty.
  - destruct (split sep p) as [|h t] eqn:Hs; [done|].
    destruct t as [|h' t].
    + cbn [str_join] in *. by rewrite IH.
    + rewrite str_join_cons in IH by done. rewrite str_join_cons by done.
      by rewrite append_String, IH.
Qed.

(** [relpath] by components: when the two paths share the components [c]
    and part ways right after them, the result climbs out of what is left
    of [p1] with one [pardir] per component and descends along what is left
    of [p2]. *)
Theorem relpath_components (p1 p2 : string) sep pardir c (u1 u2 : list string) :
  split sep (sub_trailing "\" (sub_trailing "/" p1)) = (c ++ u1)%list ->
  split sep p2 = (c ++ u2)%list ->
  c <> [] ->
  match u1, u2 with
  | a :: _, b :: _ => a <> b
  | _, _ => True
  end ->
  relpath p1 p2 sep pardir =
  Ok (str_join (String sep EmptyString)
        (replicate (length u1) pardir ++ u2)%list).
Proof.
  intros H1 H2 Hc Hfork. unfold relpath. cbv zeta. rewrite H1, H2.
  rewrite (common_prefix_fork c u1 u2 Hfork). cbn.
  by destruct c.
Qed.

(** With nothing in common, that is with different first components,
    [relpath] returns [p2] as it is. *)
Theorem relpath_nothing_in_common (p1 p2 : string) sep pardir (a b : string)
    (u1 u2 : list string) :
  split sep (sub_trailing "\" (sub_trailing "/" p1)) = a :: u1 ->
  split sep p2 = b :: u2 ->
  a <> b ->
  relpath p1 p2 sep pardir = Ok p2.
Proof.
  intros H1 H2 Hne. unfold relpath. cbv zeta. rewrite H1, H2.
  by rewrite (common_prefix_fork [] (a :: u1) (b :: u2) Hne).
Qed.

Lemma rstrip_char_fixed (ch : ascii) (s : string) :
  last_is ch s = false -> rstrip_char ch s = s.
Proof.
  induction s as [|a r IH]; [done|]. cbn [last_is rstrip_char].
  destruct r as [|b r'].
  - cbn [rstrip_char]. by intros ->.
  - intros Hr. by rewrite (IH Hr).
Qed.

Lemma drop_last_newline (s : string) :
  ends_with_newline s = true -> drop_last s +:+ String "010" EmptyString = s.
Proof.
  induction s as [|a r IH]; [done|]. cbn [ends_with_newline drop_last].
  destruct r as [|b r'].
  - intros ->%Ascii.eqb_eq. reflexivity.
  - intros Hr. by rewrite append_String, (IH Hr).
Qed.

Lemma sub_trailing_fixed (ch : ascii) (p : string) :
  last_is ch (if ends_with_newline p then drop_last p else p) = false ->
  sub_trailing ch p = p.
Proof.
  unfold sub_trailing. destruct (ends_with_newline p) eqn:Hnl; intros Hc.
  - by rewrite (rstrip_char_fixed ch _ Hc), drop_last_newline.
  - by apply rstrip_char_fixed.
Qed.

(** The two substitutions leave such a path as it is. *)
Lemma no_trailing_separator_fixed (p : string) :
  no_trailing_separator p = true ->
  sub_trailing "\" (sub_trailing "/" p) = p.
Proof.
  unfold no_trailing_separator.
  intros [Hs Hb]%andb_true_iff.
  apply negb_true_iff in Hs, Hb.
  by rewrite (sub_trailing_fixed "/" p Hs), (sub_trailing_fixed "\" p Hb).
Qed.

(** From a path that ends neither in a slash nor in a backslash, one final
    line feed set aside, to a path below it, [relpath] is what follows the
    separator; to the path itself it is the empty string. *)
Theorem relpath_below p rest sep pardir :
  no_trailing_separator p = true ->
  relpath p (p +:+ String sep rest) sep pardir = Ok rest /\
  relpath p p sep pardir = Ok EmptyString.
Proof.
  intros Hp%no_trailing_separator_fixed. split.
  - rewrite (relpath_components p _ sep pardir (split sep p) [] (split sep rest)).
    + cbn. by rewrite str_join_split.
    + by rewrite Hp, app_nil_r.
    + apply split_app.
    + apply split_nonempty.
    + done.
  - rewrite (relpath_components p _ sep pardir (split sep p) [] []);
      [done | by rewrite Hp, app_nil_r | by rewrite app_nil_r
      | apply split_nonempty | done].
Qed.

End RelativePaths.

Lemma relpath_components_siblings :
  relpath "/a/b/c/" "/a/b/d/e" "/" ".." = Ok "../d/e".
Proof.
  apply (relpath_components "/a/b/c/" "/a/b/d/e" "/" ".." [""; "a"; "b"]
           ["c"] ["d"; "e"]); try reflexivity; discriminate.
Defined.

Lemma relpath_nothing_in_common_relative :
  relpath "a/b" "c/d" "/" ".." = Ok "c/d".
Proof.
  apply (relpath_nothing_in_common "a/b" "c/d" "/" ".." "a" "c" ["b"] ["d"]);
    try reflexivity; discriminate.
Defined.

Lemma relpath_below_project :
  relpath "/proj/shots" ("/proj/shots" +:+ String "/" "sh010/plate.exr")
    "/" ".." = Ok "sh010/plate.exr" /\
  relpath "/proj/shots" "/proj/shots" "/" ".." = Ok EmptyString.
Proof.
  apply (relpath_below "/proj/shots" "sh010/plate.exr" "/" "..").
  reflexivity.
Defined.

(** ** Argument vectors *)

Section Arguments.

Import Convert.

Implicit Types (kwargs : options) (k cmd output : string) (v : optval).

Lemma kwargs_args_lookup kwargs k v :
  kwargs !! k = Some v ->
  exists before after,
    kwargs_args kwargs = (before ++ flag_args k v ++ after)%list.
Proof.
  intros Hk. apply elem_of_map_to_list in Hk.
  destruct (list_elem_of_split _ _ Hk) as (l1 & l2 & Hsplit).
  unfold kwargs_args. rewrite Hsplit, bind_app, bind_cons. eauto.
Qed.

(** Without an output that is a string, [ffmpeg] builds its options and
    then fails on [output.split]: no process is started. *)
Theorem ffmpeg_args_without_output cmd (cpu : Z) kwargs :
  (forall output, kwargs !! "o" <> Some (VStr output)) ->
  ffmpeg_args cmd cpu kwargs = Raise AttributeError.
Proof.
  intros Ho. unfold ffmpeg_args.
  destruct (kwargs !! "o") as [[output| |]|] eqn:H; try reflexivity.
  by destruct (Ho output).
Qed.

(** With an output path, the vector starts with the command and ends
    with [-y] and the path, and every other keyword argument is in it as
    its flag followed by its value, a list as the flag before each of its
    elements in order. *)
Theorem ffmpeg_args_shape cmd (cpu : Z) kwargs output :
  kwargs !! "o" = Some (VStr output) ->
  output <> EmptyString ->
  exists opts,
    ffmpeg_args cmd cpu kwargs = Ok (cmd :: opts ++ ["-y"; output])%list /\
    forall k v, k <> "o" -> kwargs !! k = Some v ->
      exists before after, opts = (before ++ flag_args k v ++ after)%list.
Proof.
  intros Ho Hne. unfold ffmpeg_args. rewrite Ho.
  apply String.eqb_neq in Hne. rewrite Hne.
  destruct (mem (last_part output) still_formats).
  - exists (kwargs_args (delete "o" kwargs)). split.
    + cbn. by rewrite <- app_assoc.
    + intros k v Hk Hv. apply kwargs_args_lookup.
      by rewrite lookup_delete_ne.
  - exists (kwargs_args (delete "o" kwargs) ++ ["-threads"; pretty cpu])%list.
    split.
    + cbn. by rewrite <- !app_assoc.
    + intros k v Hk Hv.
      destruct (kwargs_args_lookup (delete "o" kwargs) k v)
        as (before & after & ->); [by rewrite lookup_delete_ne|].
      exists before, (after ++ ["-threads"; pretty cpu])%list.
      by rewrite <- !app_assoc.
Qed.

(** [ffprobe] with one option: the command, the flag, the value. *)
Lemma ffprobe_args_single cmd k (s : string) :
  ffprobe_args cmd {[ k := VStr s ]} = [cmd; "-" +:+ k; s].
Proof.
  unfold ffprobe_args, kwargs_args. by rewrite map_to_list_singleton.
Qed.

End Arguments.

Lemma ffmpeg_args_without_output_probe :
  ffmpeg_args "ffmpeg" 8 {[ "i" := Convert.VStr "in.mov" ]} =
  Raise AttributeError.
Proof.
  apply (ffmpeg_args_without_output "ffmpeg" 8
           {[ "i" := Convert.VStr "in.mov" ]}).
  intros output. vm_compute. discriminate.
Defined.

Lemma ffmpeg_args_shape_frames :
  exists opts,
    ffmpeg_args "ffmpeg" 8
      {[ "i" := Convert.VList ["/tmp/s.jpg"; "/tmp/m.jpg"; "/tmp/e.jpg"];
         "o" := Convert.VStr "/tmp/t.jpg" ]} =
      Ok ("ffmpeg" :: opts ++ ["-y"; "/tmp/t.jpg"])%list /\
    exists before after,
      opts = (before ++
              ["-i"; "/tmp/s.jpg"; "-i"; "/tmp/m.jpg"; "-i"; "/tmp/e.jpg"] ++
              after)%list.
Proof.
  destruct (ffmpeg_args_shape "ffmpeg" 8
              {[ "i" := Convert.VList ["/tmp/s.jpg"; "/tmp/m.jpg"; "/tmp/e.jpg"];
                 "o" := Convert.VStr "/tmp/t.jpg" ]} "/tmp/t.jpg")
    as (opts & Hargs & Hopts); [vm_compute; reflexivity | discriminate |].
  exists opts. split; [exact Hargs|].
  apply (Hopts "i" (Convert.VList ["/tmp/s.jpg"; "/tmp/m.jpg"; "/tmp/e.jpg"]));
    [discriminate | vm_compute; reflexivity].
Defined.

(** ** The video thumbnail from probe to clean-up *)

Set Warnings "-clear-no-such-hyp".

Section StreamChoice.

Implicit Types (streams pre post : list record) (r : record).

(** Without a video stream the estimate fails on [None]. *)
Theorem total_frames_no_video_stream streams (format : option record) :
  Forall (fun r => is_Some (r !! "codec_type")) streams ->
  Forall (fun r => is_video r = false) streams ->
  total_frames (MediaInfo format streams) = Raise AttributeError.
Proof.
  intros Hc Hv. unfold total_frames. cbn [stream_info video_info].
  by rewrite (select_video_stream_no_video streams None Hc Hv).
Qed.

(** A stream record without [codec_type] fails the choice with
    [KeyError], also when a video stream was seen before it. *)
Theorem total_frames_missing_codec_type pre r post (format : option record) :
  Forall (fun r => is_Some (r !! "codec_type")) pre ->
  r !! "codec_type" = None ->
  total_frames (MediaInfo format (pre ++ r :: post)) = Raise KeyError.
Proof.
  intros Hpre Hr. unfold total_frames. cbn [stream_info video_info].
  rewrite select_video_stream_app.
  destruct (select_video_stream_returns pre None Hpre) as [cur ->].
  cbn. by rewrite Hr.
Qed.

End StreamChoice.

Lemma total_frames_audio_only :
  total_frames (MediaInfo None [Samples.audio_c]) = Raise AttributeError.
Proof.
  apply (total_frames_no_video_stream [Samples.audio_c] None).
  - repeat constructor. vm_compute. eauto.
  - repeat constructor.
Defined.

Lemma total_frames_record_without_codec_type :
  total_frames (MediaInfo None [Samples.video_a; ∅; Samples.video_b]) =
  Raise KeyError.
Proof.
  apply (total_frames_missing_codec_type [Samples.video_a] ∅
           [Samples.video_b] None).
  - repeat constructor. vm_compute. eauto.
  - reflexivity.
Defined.

Section VideoThumbnail.

Import Convert.

Variable T : tools.
Variable names : temp_names.
Variable file_full_path : string.

Implicit Types (fs : files) (p output : string) (kwargs : options)
  (t : thumbs).

(** A run of [ffmpeg] with an output path ends normally and changes the
    file system at that path at most. *)
Lemma ffmpeg_effect kwargs output fs :
  kwargs !! "o" = Some (VStr output) ->
  exists fs',
    ffmpeg T kwargs fs = (Ok tt, fs') /\
    (fs' = fs \/ fs' = {[ output ]} ∪ fs).
Proof.
  intros Ho. unfold ffmpeg, ffmpeg_args. rewrite Ho.
  destruct (negb _ && _)%bool; eauto.
Qed.

Lemma extract_frames_effect (plan : Z * Z * Z) t fs :
  exists fs',
    extract_frames T file_full_path plan t fs = (Ok tt, fs') /\
    fs ⊆ fs' /\
    fs' ⊆ {[ start_thumb_path t; mid_thumb_path t; end_thumb_path t ]} ∪ fs.
Proof.
  destruct plan as [[start_frame mid_frame] end_frame].
  unfold extract_frames, fs_seq.
  edestruct ffmpeg_effect as (fs1 & -> & H1); [by simplify_map_eq|].
  edestruct ffmpeg_effect as (fs2 & -> & H2); [by simplify_map_eq|].
  edestruct ffmpeg_effect as (fs3 & -> & H3); [by simplify_map_eq|].
  exists fs3. split; [reflexivity|].
  destruct H1 as [->| ->], H2 as [->| ->], H3 as [->| ->]; set_solver.
Qed.

(** Every planned frame that exists is among the resolved paths. *)
Lemma resolve_thumbs_covers fs t p :
  p ∈ [start_thumb_path t; mid_thumb_path t; end_thumb_path t] ->
  exists_ fs p = true ->
  let r := resolve_thumbs fs t in
  p ∈ [start_thumb_path r; mid_thumb_path r; end_thumb_path r].
Proof.
  destruct t as [s m e]. cbn [start_thumb_path mid_thumb_path end_thumb_path].
  intros Hp Hex.
  unfold resolve_thumbs, check_end, check_mid, check_start.
  cbn [start_thumb_path mid_thumb_path end_thumb_path].
  destruct (exists_ fs s) eqn:Hs, (exists_ fs m) eqn:Hm,
    (exists_ fs e) eqn:He;
    cbn [negb start_thumb_path mid_thumb_path end_thumb_path];
    rewrite ?Hs, ?Hm, ?He;
    cbn [negb start_thumb_path mid_thumb_path end_thumb_path];
    rewrite ?Hs, ?Hm, ?He;
    cbn [negb start_thumb_path mid_thumb_path end_thumb_path];
    repeat (apply elem_of_cons in Hp as [->|Hp]; [congruence || set_solver|]);
    by apply elem_of_nil in Hp.
Qed.

Lemma compose_thumbnail_effect fs :
  let r := resolve_thumbs fs (planned names) in
  exists fs',
    compose_thumbnail T names fs =
      (Ok (thumbnail_path names),
       fs' ∖ {[ start_thumb_path r ]} ∖ {[ mid_thumb_path r ]}
          ∖ {[ end_thumb_path r ]}) /\
    (fs' = fs \/ fs' = {[ thumbnail_path names ]} ∪ fs).
Proof.
  intros r. unfold compose_thumbnail, fs_seq, remove_quietly, fs_pure.
  fold r.
  edestruct ffmpeg_effect as (fs1 & -> & H1); [by simplify_map_eq|].
  eauto.
Qed.

(** Once the frame count and the frame plan are there, the thumbnail
    path is returned whatever the four runs of [ffmpeg] produced, and no
    file is left behind except, possibly, at the thumbnail path. *)
Theorem generate_video_thumbnail_returns (info : media_info) (nb_frames : Z)
    (plan : Z * Z * Z) fs :
  video_info_of T file_full_path = Ok info ->
  total_frames info = Ok nb_frames ->
  frame_plan nb_frames = Ok plan ->
  exists fs',
    generate_video_thumbnail T names file_full_path fs =
      (Ok (thumbnail_path names), fs') /\
    forall p, p ∈ fs' -> p ∈ fs \/ p = thumbnail_path names.
Proof.
  intros Hinfo Hframes Hplan.
  unfold generate_video_thumbnail, fs_seq, fs_pure.
  rewrite Hinfo, Hframes, Hplan.
  destruct (extract_frames_effect plan (planned names) fs)
    as (fs1 & -> & Hsub & Hsup).
  destruct (compose_thumbnail_effect fs1) as (fs2 & -> & H2).
  eexists. split; [reflexivity|].
  intros p Hp.
  assert (p ∈ fs2 /\
          p ∉ ({[ start_thumb_path (resolve_thumbs fs1 (planned names));
                  mid_thumb_path (resolve_thumbs fs1 (planned names));
                  end_thumb_path (resolve_thumbs fs1 (planned names)) ]}
               : files)) as [Hin Hout] by set_solver.
  destruct (decide (p = thumbnail_path names)) as [|Hne]; [by right|]. left.
  assert (p ∈ fs1) as Hp1 by (destruct H2 as [->| ->]; set_solver).
  destruct (decide (p ∈ fs)) as [|Hnew]; [done|]. exfalso.
  assert (p ∈ [start_thumb_path (planned names);
               mid_thumb_path (planned names);
               end_thumb_path (planned names)]) as Hplanned by set_solver.
  pose proof (resolve_thumbs_covers fs1 (planned names) p Hplanned) as Hcov.
  unfold exists_ in Hcov. rewrite bool_decide_eq_true_2 in Hcov by done.
  specialize (Hcov eq_refl). cbv zeta in Hcov. set_solver.
Qed.

(** The three frame files are removed: after the call none of the planned
    frame paths exists, whichever of them the extractions wrote and also
    when a file was there before, provided the thumbnail path is not one of
    them. *)
Theorem generate_video_thumbnail_cleans_up (info : media_info)
    (nb_frames : Z) (plan : Z * Z * Z) fs :
  video_info_of T file_full_path = Ok info ->
  total_frames info = Ok nb_frames ->
  frame_plan nb_frames = Ok plan ->
  thumbnail_path names ∉ [start_thumb_path (planned names);
                          mid_thumb_path (planned names);
                          end_thumb_path (planned names)] ->
  forall p,
    p ∈ [start_thumb_path (planned names); mid_thumb_path (planned names);
         end_thumb_path (planned names)] ->
    p ∉ (generate_video_thumbnail T names file_full_path fs).2.
Proof.
  intros Hinfo Hframes Hplan Hfresh p Hplanned.
  unfold generate_video_thumbnail, fs_seq, fs_pure.
  rewrite Hinfo, Hframes, Hplan.
  destruct (extract_frames_effect plan (planned names) fs)
    as (fs1 & -> & Hsub & Hsup).
  destruct (compose_thumbnail_effect fs1) as (fs2 & -> & H2).
  cbn [snd]. intros Hp.
  assert (p ∈ fs2 /\
          p ∉ ({[ start_thumb_path (resolve_thumbs fs1 (planned names));
                  mid_thumb_path (resolve_thumbs fs1 (planned names));
                  end_thumb_path (resolve_thumbs fs1 (planned names)) ]}
               : files)) as [Hin Hout] by set_solver.
  assert (p <> thumbnail_path names) as Hne by (intros ->; done).
  assert (p ∈ fs1) as Hp1 by (destruct H2 as [->| ->]; set_solver).
  pose proof (resolve_thumbs_covers fs1 (planned names) p Hplanned) as Hcov.
  unfold exists_ in Hcov. rewrite bool_decide_eq_true_2 in Hcov by done.
  specialize (Hcov eq_refl). cbv zeta in Hcov. set_solver.
Qed.

(** When the frame count cannot be had, the exception leaves the call
    before any run of [ffmpeg]: the file system is as it was. *)
Theorem generate_video_thumbnail_raises (info : media_info) (e : exn) fs :
  video_info_of T file_full_path = Ok info ->
  total_frames info = Raise e ->
  generate_video_thumbnail T names file_full_path fs = (Raise e, fs).
Proof.
  intros Hinfo Hframes.
  unfold generate_video_thumbnail, fs_seq, fs_pure.
  by rewrite Hinfo, Hframes.
Qed.

End VideoThumbnail.


Lemma generate_video_thumbnail_returns_clip :
  exists fs',
    generate_video_thumbnail Samples.clip_tools Samples.clip_names
      "/in/clip.mov" ∅ = (Ok "/tmp/tmpT.jpg", fs') /\
    forall p, p ∈ fs' -> p ∈ (∅ : files) \/ p = "/tmp/tmpT.jpg".
Proof.
  apply (generate_video_thumbnail_returns Samples.clip_tools
           Samples.clip_names "/in/clip.mov" Samples.clip_info 240
           (24, 120, 215) ∅); vm_compute; reflexivity.
Defined.

Lemma generate_video_thumbnail_cleans_up_clip :
  let fs' :=
    (generate_video_thumbnail Samples.clip_tools Samples.clip_names
       "/in/clip.mov" {[ "/tmp/tmpE.jpg" ]}).2 in
  ("/tmp/tmpS.jpg" ∉ fs') /\ ("/tmp/tmpM.jpg" ∉ fs') /\
  ("/tmp/tmpE.jpg" ∉ fs').
Proof.
  pose proof (generate_video_thumbnail_cleans_up Samples.clip_tools
                Samples.clip_names "/in/clip.mov" Samples.clip_info 240
                (24, 120, 215) {[ "/tmp/tmpE.jpg" ]}) as H.
  repeat split; apply H; try (vm_compute; reflexivity);
    apply (bool_decide_unpack _); vm_compute; exact I.
Defined.

Lemma generate_video_thumbnail_raises_audio :
  generate_video_thumbnail Samples.audio_tools Samples.clip_names
    "/in/song.mov" ∅ = (Raise AttributeError, ∅).
Proof.
  apply (generate_video_thumbnail_raises Samples.audio_tools
           Samples.clip_names "/in/song.mov" Samples.audio_info
           AttributeError ∅); vm_compute; reflexivity.
Defined.

(** ** More on the probe-output parser *)

Section ParserEdges.

Implicit Types (buf lines body : list string) (line : string) (d : record)
  (fields : list (string * string)).

Lemma stream_loop_no_marker buf :
  forall line acc,
    String.eqb line "[STREAM]" = false ->
    Forall (fun l => String.eqb (strip l) "[STREAM]" = false) buf ->
    stream_loop buf None line acc = Ok acc.
Proof.
  induction buf as [|l buf IH]; intros line acc Hline Hbuf;
    rewrite stream_loop_outside by done; [done|].
  apply Forall_cons in Hbuf as [Hl Hbuf]. by apply IH.
Qed.

(** Output without a [[STREAM]] line gives no stream record: what is
    outside the blocks is skipped. *)
Theorem parse_streams_without_blocks lines :
  lines <> [] ->
  Forall (fun l => String.eqb (strip l) "[STREAM]" = false) lines ->
  parse_streams lines = Ok [].
Proof.
  destruct lines as [|l buf]; [done|]. intros _ H.
  apply Forall_cons in H as [Hl Hbuf]. cbn [parse_streams pop0].
  change (stream_loop buf None (strip l) [] = Ok []).
  by apply stream_loop_no_marker.
Qed.

(** When either run of [ffprobe] prints nothing, the first [pop(0)] of the
    loop concerned raises [IndexError]. *)
Theorem get_video_info_empty_output (show_streams show_format : list string) :
  get_video_info [] show_format = Raise IndexError /\
  (returns (parse_streams show_streams) ->
   get_video_info show_streams [] = Raise IndexError).
Proof.
  split; [reflexivity|]. intros [recs H]. unfold get_video_info.
  by rewrite H.
Qed.

Lemma store_field_holds line kv d :
  holds_field line kv ->
  store_field (strip line) d = Ok (<[ kv.1 := kv.2 ]> d) /\
  String.eqb (strip line) "[/STREAM]" = false.
Proof.
  intros (Hline & Hk & Hv). rewrite Hline. split.
  - by apply store_field_one_equals.
  - apply String.eqb_neq. intros Heq.
    pose proof (contains_first "=" kv.1 kv.2) as Hc.
    rewrite Heq in Hc. discriminate.
Qed.

(** The [pop(0)] at the end of a turn of the inner loop. *)
Local Abbreviation next_in_block buf d acc :=
  (match buf with
   | [] => Raise IndexError
   | l :: buf' => stream_loop buf' (Some d) (strip l) acc
   end).

Lemma stream_loop_fields body :
  forall fields d closing rest acc,
    Forall2 holds_field body fields ->
    String.eqb (strip closing) "[/STREAM]" = true ->
    next_in_block (body ++ closing :: rest)%list d acc =
    match rest with
    | [] => Ok (acc ++ [foldl (fun d kv => <[ kv.1 := kv.2 ]> d) d fields])%list
    | l :: rest' =>
        stream_loop rest' None (strip l)
          (acc ++ [foldl (fun d kv => <[ kv.1 := kv.2 ]> d) d fields])%list
    end.
Proof.
  induction body as [|l body IH];
    intros fields d closing rest acc Hfields Hclose.
  - apply Forall2_nil_inv_l in Hfields as ->. cbn [app foldl].
    by rewrite stream_loop_close.
  - apply Forall2_cons_inv_l in Hfields as (kv & fields' & Hl & Hrest & ->).
    destruct (store_field_holds l kv d Hl) as [Hs Hnc].
    cbn [app foldl]. rewrite stream_loop_inside by done. rewrite Hs.
    change (Ok ?x ≫= ?k) with (k x). cbv beta.
    by apply IH.
Qed.

(** A closed block gives one record, which holds the fields of the block,
    a later field replacing an earlier one of the same key. *)
Theorem parse_streams_block (opening closing : string) body fields :
  String.eqb (strip opening) "[STREAM]" = true ->
  String.eqb (strip closing) "[/STREAM]" = true ->
  Forall2 holds_field body fields ->
  parse_streams (opening :: body ++ [closing]) = Ok [record_of fields].
Proof.
  intros Hopen Hclose Hfields. cbn [parse_streams pop0].
  change (stream_loop (body ++ [closing]) None (strip opening) [] =
          Ok [record_of fields]).
  rewrite stream_loop_open by done.
  apply String.eqb_eq in Hopen. rewrite Hopen.
  rewrite stream_loop_inside by reflexivity.
  change (store_field "[STREAM]" ∅) with (Ok (∅ : record)).
  change (Ok ?x ≫= ?k) with (k x). cbv beta.
  by rewrite (stream_loop_fields body fields ∅ closing [] []).
Qed.

End ParserEdges.

Lemma parse_streams_without_blocks_banner :
  parse_streams ["ffprobe version 2.1" +:+ Samples.nl; Samples.nl] = Ok [].
Proof.
  apply (parse_streams_without_blocks
           ["ffprobe version 2.1" +:+ Samples.nl; Samples.nl]).
  - discriminate.
  - repeat constructor.
Defined.

Lemma get_video_info_empty_format_output :
  get_video_info Samples.two_blocks [] = Raise IndexError.
Proof.
  apply (proj2 (get_video_info_empty_output Samples.two_blocks [])).
  eexists. vm_compute. reflexivity.
Defined.

Lemma parse_streams_block_repeated_key :
  parse_streams
    ["[STREAM]" +:+ Samples.nl; "codec_type=audio" +:+ Samples.nl;
     "  codec_type=video" +:+ Samples.nl; "[/STREAM]" +:+ Samples.nl] =
  Ok [record_of [("codec_type", "audio"); ("codec_type", "video")]].
Proof.
  apply (parse_streams_block ("[STREAM]" +:+ Samples.nl)
           ("[/STREAM]" +:+ Samples.nl)
           ["codec_type=audio" +:+ Samples.nl;
            "  codec_type=video" +:+ Samples.nl]
           [("codec_type", "audio"); ("codec_type", "video")]);
    try reflexivity.
  repeat constructor.
Defined.

(** ** Uploads that succeed, and conversions that fail silently *)

Section UploadOutcomes.

Variable E : env.
Variables absolute_path filename : string.
Variable w : world.

Local Abbreviation reference_file :=
  (upload_file E (Path.join absolute_path reference_path) filename).
Local Abbreviation version_file :=
  (upload_file E (Path.join absolute_path version_output_path) filename).
Local Abbreviation root := (length (heap w)).

Ltac lengths := rewrite ?length_alter, ?length_app; cbn [length]; lia.

(** When both derivatives of a reference are written, the upload returns
    the root, appends it to the references of the task, and the chain is
    root, web version, thumbnail and ends there. *)
Theorem upload_reference_links_all (temp_web temp_thumb : string) :
  web_outcome E reference_file = Produced temp_web true ->
  thumbnail_outcome E reference_file = Produced temp_thumb true ->
  exists w',
    upload_reference E absolute_path filename w = (Ok root, w') /\
    collection w' = (collection w ++ [root])%list /\
    forall n, (2 <= n)%nat ->
      chain (heap w') n root = [root; S root; S (S root)].
Proof.
  intros Hweb Hthumb.
  unfold upload_reference, seq, do_upload, new_link, generate_media_for_web,
    generate_thumbnail, move, append_link, set_thumbnail, ret.
  cbv zeta. rewrite Hweb. cbn [run_generator heap fs collection].
  rewrite bool_decide_eq_true_2 by set_solver.
  cbn [heap fs collection]. rewrite Hthumb.
  cbn [run_generator heap fs collection].
  rewrite bool_decide_eq_true_2 by set_solver.
  cbn [heap fs collection].
  eexists. split; [reflexivity|]. cbn [heap collection].
  split; [reflexivity|]. intros [|[|n]] Hn; [lia | lia |].
  erewrite chain_step; cycle 1.
  { rewrite thumbnail_of_attach_ne by lengths.
    apply thumbnail_of_attach_eq. lengths. }
  erewrite chain_step; cycle 1.
  { apply thumbnail_of_attach_eq. lengths. }
  rewrite chain_end.
  - repeat f_equal; lengths.
  - rewrite !thumbnail_of_attach_ne by lengths. apply thumbnail_of_fresh.
Qed.

(** A web version that was announced but not written, as after a run of
    [ffmpeg] that failed, surfaces at [shutil.move] as an [IOError], which
    [upload_version_output] does not catch: the upload fails and the root
    does not join the outputs of the version. *)
Theorem upload_version_output_missing_web_file (temp_web : string) :
  web_outcome E version_file = Produced temp_web false ->
  temp_web ∉ fs w ->
  temp_web <> version_file ->
  exists w',
    upload_version_output E absolute_path filename w = (Raise IOError, w') /\
    collection w' = collection w.
Proof.
  intros Hweb Hfs Hne. rewrite upload_version_output_unfold. cbv zeta.
  unfold generate_media_for_web. rewrite Hweb.
  unfold derivative_stage, run_generator, new_link, move.
  cbn [heap fs collection].
  rewrite bool_decide_eq_false_2 by set_solver.
  eauto.
Qed.

End UploadOutcomes.

Lemma upload_reference_links_all_image :
  exists w',
    upload_reference Samples.all_good "/proj/t1" "plate.PNG"
      Samples.empty_world = (Ok O, w') /\
    collection w' = [O] /\
    forall n, (2 <= n)%nat -> chain (heap w') n O = [O; 1%nat; 2%nat].
Proof.
  apply (upload_reference_links_all Samples.all_good "/proj/t1" "plate.PNG"
           Samples.empty_world "/tmp/web.jpg" "/tmp/thumb.jpg");
    vm_compute; reflexivity.
Defined.

Lemma upload_version_output_missing_web_file_clip :
  exists w',
    upload_version_output Samples.silent_failure "/proj/v1" "clip.mov"
      Samples.empty_world = (Raise IOError, w') /\
    collection w' = [].
Proof.
  apply (upload_version_output_missing_web_file Samples.silent_failure
           "/proj/v1" "clip.mov" Samples.empty_world "/tmp/web.webm").
  - vm_compute. reflexivity.
  - apply (bool_decide_unpack _). vm_compute. exact I.
  - vm_compute. discriminate.
Defined.

(** ** The frame plan in integers *)

Lemma all_from_spec (P : Z -> bool) (fuel : nat) :
  forall n, all_from fuel n P = true ->
  forall k, n <= k < n + Z.of_nat fuel -> P k = true.
Proof.
  induction fuel as [|fuel IH]; intros n H k Hk; [lia|].
  cbn [all_from] in H. apply andb_true_iff in H as [Hn H].
  destruct (decide (k = n)) as [->|Hne]; [done|].
  apply (IH (n + 1) H). lia.
Qed.

Lemma plan_agrees_below_100000 :
  all_from (Z.to_nat 100000) 0 plan_agrees = true.
Proof. vm_compute. reflexivity. Qed.

(** For every frame count below 100000 the floating-point products give
    the integer plan: a tenth, a half, and nine tenths less one, each
    rounded down. *)
Theorem frame_plan_floor (nb_frames : Z) :
  0 <= nb_frames < 100000 ->
  frame_plan nb_frames =
  Ok (nb_frames / 10, nb_frames / 2, 9 * nb_frames / 10 - 1).
Proof.
  intros Hn.
  pose proof (all_from_spec plan_agrees (Z.to_nat 100000) 0
                plan_agrees_below_100000 nb_frames) as H.
  rewrite Z2Nat.id in H by lia.
  specialize (H ltac:(lia)). unfold plan_agrees in H.
  destruct (frame_plan nb_frames) as [[[s m] e]|]; [|discriminate].
  apply andb_true_iff in H as [H He]. apply andb_true_iff in H as [Hs Hm].
  apply Z.eqb_eq in Hs, Hm, He. by subst.
Qed.

(** From three frames on the three indices are in order and inside the
    clip; for fewer frames the end index falls below the mid index, and
    for none it is negative. *)
Theorem frame_plan_order (nb_frames start_frame mid_frame end_frame : Z) :
  0 <= nb_frames < 100000 ->
  frame_plan nb_frames = Ok (start_frame, mid_frame, end_frame) ->
  (3 <= nb_frames ->
   0 <= start_frame <= mid_frame /\ mid_frame <= end_frame < nb_frames) /\
  (nb_frames < 3 -> end_frame < mid_frame \/ end_frame < 0).
Proof.
  intros Hn Hplan. rewrite (frame_plan_floor nb_frames Hn) in Hplan.
  injection Hplan as <- <- <-. split; intros H3.
  - repeat split; Z.to_euclidean_division_equations; lia.
  - Z.to_euclidean_division_equations; lia.
Qed.

Lemma frame_plan_floor_one_hour :
  frame_plan 86400 = Ok (86400 / 10, 86400 / 2, 9 * 86400 / 10 - 1).
Proof. apply (frame_plan_floor 86400). lia. Defined.

Lemma frame_plan_order_240 : 0 <= 24 <= 120 /\ 120 <= 215 < 240.
Proof.
  destruct (frame_plan_order 240 24 120 215) as [H _];
    [lia | vm_compute; reflexivity | apply H; lia].
Defined.

(** ** Strings with embedded numbers *)

Section NaturalOrder.

Implicit Types (s p d r cur : string) (c : ascii).

Lemma append_empty_r s : s +:+ EmptyString = s.
Proof. induction s as [|c s IH]; [done|]. by rewrite append_String, IH. Qed.

Lemma append_snoc cur c s :
  (cur +:+ String c EmptyString) +:+ s = cur +:+ String c s.
Proof.
  induction cur as [|a cur IH]; [done|]. by rewrite !append_String, IH.
Qed.

Lemma split_digits_text p r cur :
  every (fun c => negb (is_digit c)) p = true ->
  split_digits (p +:+ r) false cur = split_digits r false (cur +:+ p).
Proof.
  revert cur. induction p as [|c p IH]; intros cur Hp.
  - by rewrite append_empty, append_empty_r.
  - cbn [every] in Hp. apply andb_true_iff in Hp as [Hc Hp].
    rewrite append_String. cbn [split_digits].
    apply negb_true_iff in Hc. rewrite Hc.
    by rewrite (IH _ Hp), append_snoc.
Qed.

Lemma split_digits_run d r cur :
  every is_digit d = true ->
  split_digits (d +:+ r) true cur = split_digits r true (cur +:+ d).
Proof.
  revert cur. induction d as [|c d IH]; intros cur Hd.
  - by rewrite append_empty, append_empty_r.
  - cbn [every] in Hd. apply andb_true_iff in Hd as [Hc Hd].
    rewrite append_String. cbn [split_digits]. rewrite Hc.
    by rewrite (IH _ Hd), append_snoc.
Qed.

(** Text without digits followed by one run of digits. *)
Lemma split_digits_name p d :
  every (fun c => negb (is_digit c)) p = true ->
  every is_digit d = true -> d <> EmptyString ->
  split_digits (p +:+ d) false EmptyString = [p; d; EmptyString].
Proof.
  intros Hp Hd Hne. rewrite (split_digits_text p d _ Hp), append_empty.
  destruct d as [|c d]; [done|]. cbn [every] in Hd.
  apply andb_true_iff in Hd as [Hc Hd]. cbn [split_digits]. rewrite Hc.
  f_equal. rewrite <- (append_empty_r d) at 1.
  rewrite (split_digits_run d EmptyString _ Hd). reflexivity.
Qed.

Lemma string_compare_refl s : String.compare s s = Eq.
Proof.
  pose proof (String.compare_antisym s s) as H.
  by destruct (String.compare s s).
Qed.

(** Two names that differ in their number only sort by the number, and
    keep their order when the numbers are equal. *)
Theorem sort_by_embedded_number p (da db : string) (a b : Z) :
  every (fun c => negb (is_digit c)) p = true ->
  every is_digit da = true -> da <> EmptyString ->
  every is_digit db = true -> db <> EmptyString ->
  int_of_str da = Ok a ->
  int_of_str db = Ok b ->
  sort_strings_with_embedded_numbers [p +:+ da; p +:+ db] =
  Ok (if (b <? a)%Z then [p +:+ db; p +:+ da] else [p +:+ da; p +:+ db]).
Proof.
  intros Hp Hda Hnea Hdb Hneb Ha Hb.
  unfold sort_strings_with_embedded_numbers. cbn [keyed].
  unfold embedded_numbers.
  rewrite (split_digits_name p da Hp Hda Hnea).
  rewrite (split_digits_name p db Hp Hdb Hneb).
  cbn [convert_odd negb]. rewrite Ha, Hb. cbn.
  unfold key_le. cbn [key_compare piece_compare].
  rewrite string_compare_refl.
  destruct (Z.compare_spec a b) as [->|Hlt|Hgt].
  - rewrite Z.ltb_irrefl. reflexivity.
  - cbn. destruct (Z.ltb_spec b a); [lia|reflexivity].
  - destruct (Z.ltb_spec b a); [reflexivity|lia].
Qed.

Lemma is_digit_not_space c : is_digit c = true -> is_space c = false.
Proof.
  destruct c as [[] [] [] [] [] [] [] []]; try discriminate; reflexivity.
Qed.

Lemma is_digit_no_sign c r :
  is_digit c = true -> read_sign (String c r) = (false, String c r).
Proof.
  destruct c as [[] [] [] [] [] [] [] []]; try discriminate; reflexivity.
Qed.

Lemma lstrip_digits d : every is_digit d = true -> lstrip d = d.
Proof.
  destruct d as [|c d]; [done|]. cbn [every lstrip].
  intros [Hc _]%andb_true_iff. by rewrite (is_digit_not_space c Hc).
Qed.

Lemma rstrip_digits d : every is_digit d = true -> rstrip d = d.
Proof.
  induction d as [|c d IH]; [done|]. cbn [every rstrip].
  intros [Hc Hd]%andb_true_iff. rewrite (IH Hd).
  destruct d; [by rewrite (is_digit_not_space c Hc) | done].
Qed.

Lemma read_digits_all d :
  forall (acc : Z) (n : nat),
    every is_digit d = true ->
    exists v, read_digits d acc n = (v, (n + String.length d)%nat, EmptyString).
Proof.
  induction d as [|c d IH]; intros acc n Hd; cbn [read_digits String.length].
  - exists acc. by rewrite Nat.add_0_r.
  - cbn [every] in Hd. apply andb_true_iff in Hd as [Hc Hd].
    unfold is_digit in Hc. destruct (digit_of c) as [x|]; [|done].
    destruct (IH (10 * acc + x) (S n) Hd) as [v ->]. exists v.
    by rewrite Nat.add_succ_r.
Qed.

(** [int] of a run of digits is a number. *)
Lemma int_of_str_digits d :
  every is_digit d = true -> d <> EmptyString -> returns (int_of_str d).
Proof.
  intros Hd Hne. unfold int_of_str, strip.
  rewrite (lstrip_digits d Hd), (rstrip_digits d Hd).
  destruct d as [|c d]; [done|].
  pose proof Hd as Hd'. cbn [every] in Hd'.
  apply andb_true_iff in Hd' as [Hc _].
  rewrite (is_digit_no_sign c d Hc).
  destruct (read_digits_all (String c d) 0 0 Hd) as [v ->].
  cbn. by eexists.
Qed.

Lemma every_snoc (P : ascii -> bool) cur c :
  every P cur = true -> P c = true ->
  every P (cur +:+ String c EmptyString) = true.
Proof.
  intros Hcur Hc. induction cur as [|a cur IH].
  - rewrite append_empty. cbn [every]. by rewrite Hc.
  - rewrite append_String. cbn [every] in *.
    apply andb_true_iff in Hcur as [Ha Hcur]. by rewrite Ha, IH.
Qed.

Lemma append_snoc_nonempty cur c : cur +:+ String c EmptyString <> EmptyString.
Proof. by destruct cur. Qed.

Lemma convert_split_digits s :
  forall (in_digits : bool) cur,
    (in_digits = true -> every is_digit cur = true /\ cur <> EmptyString) ->
    exists k,
      convert_odd (split_digits s in_digits cur) in_digits = Ok k /\
      alternating in_digits k = true.
Proof.
  induction s as [|c s IH]; intros in_digits cur Hinv; cbn [split_digits].
  - destruct in_digits.
    + destruct (Hinv eq_refl) as [Hcur Hne].
      destruct (int_of_str_digits cur Hcur Hne) as [n Hn].
      exists [Num n; Text EmptyString]. cbn. by rewrite Hn.
    + by exists [Text cur].
  - destruct (is_digit c) eqn:Hc, in_digits.
    + destruct (Hinv eq_refl) as [Hcur Hne].
      apply IH. intros _. split;
        [by apply every_snoc | apply append_snoc_nonempty].
    + destruct (IH true (String c EmptyString)) as (k & Hk & Halt).
      { intros _. cbn. by rewrite Hc. }
      exists (Text cur :: k). cbn. by rewrite Hk.
    + destruct (Hinv eq_refl) as [Hcur Hne].
      destruct (int_of_str_digits cur Hcur Hne) as [n Hn].
      destruct (IH false (String c EmptyString)) as (k & Hk & Halt); [done|].
      exists (Num n :: k). cbn. by rewrite Hn, Hk.
    + apply IH. done.
Qed.

(** [embedded_numbers] never raises, and its key reads text, number,
    text, and so on, from a first to a last text. *)
Theorem embedded_numbers_alternating s :
  exists k, embedded_numbers s = Ok k /\ alternating false k = true.
Proof. apply convert_split_digits. done. Qed.

Lemma insert_keyed_perm x l : insert_keyed x l ≡ₚ x :: l.
Proof.
  induction l as [|y l IH]; cbn [insert_keyed]; [done|].
  destruct (key_le x.1 y.1); [done|]. by rewrite IH, Permutation_swap.
Qed.

Lemma sort_keyed_perm l : sort_keyed l ≡ₚ l.
Proof.
  induction l as [|x l IH]; [done|].
  unfold sort_keyed in *. cbn [foldr]. by rewrite insert_keyed_perm, IH.
Qed.

Lemma keyed_returns data :
  exists ks,
    keyed data = Ok ks /\ map snd ks = data /\
    Forall (fun e : list piece * string => embedded_numbers e.2 = Ok e.1) ks.
Proof.
  induction data as [|s data (ks & Hks & Hsnd & Hall)].
  - by exists [].
  - destruct (convert_split_digits s false EmptyString) as (k & Hk & _);
      [done|]. fold (embedded_numbers s) in Hk.
    exists ((k, s) :: ks). cbn [keyed]. rewrite Hk, Hks. cbn.
    split; [done|]. split; [by rewrite Hsnd|]. by constructor.
Qed.

Lemma piece_compare_antisym a b :
  piece_compare b a = CompOpp (piece_compare a b).
Proof.
  destruct a, b; cbn [piece_compare CompOpp]; try done.
  - apply String.compare_antisym.
  - apply Z.compare_antisym.
Qed.

Lemma key_compare_antisym k :
  forall k', key_compare k' k = CompOpp (key_compare k k').
Proof.
  induction k as [|a k IH]; intros [|b k']; cbn [key_compare CompOpp];
    try done.
  rewrite (piece_compare_antisym a b).
  destruct (piece_compare a b); cbn [CompOpp]; [apply IH | done | done].
Qed.

Lemma key_le_total k k' : key_le k k' = false -> key_le k' k = true.
Proof.
  unfold key_le. rewrite (key_compare_antisym k k').
  by destruct (key_compare k k').
Qed.

Local Abbreviation key_order :=
  (fun e f : list piece * string => key_le e.1 f.1 = true).

Lemma insert_keyed_sorted x l :
  Sorted key_order l -> Sorted key_order (insert_keyed x l).
Proof.
  induction 1 as [|y l Hl IH Hy]; cbn [insert_keyed].
  - by repeat constructor.
  - destruct (key_le x.1 y.1) eqn:Hxy.
    + constructor; [by constructor|]. by constructor.
    + constructor; [done|].
      destruct Hy as [|z l Hz]; cbn [insert_keyed].
      * constructor. by apply key_le_total.
      * destruct (key_le x.1 z.1); constructor;
          [by apply key_le_total | done].
Qed.

Lemma sort_keyed_sorted l : Sorted key_order (sort_keyed l).
Proof.
  induction l as [|x l IH]; [constructor|].
  unfold sort_keyed in *. cbn [foldr]. by apply insert_keyed_sorted.
Qed.

Lemma ordered_cons (x y : string) (rest : list string) :
  ordered (x :: y :: rest) =
  match embedded_numbers x, embedded_numbers y with
  | Ok kx, Ok ky => key_le kx ky
  | _, _ => false
  end && ordered (y :: rest).
Proof. reflexivity. Qed.

Lemma sorted_ordered ks :
  Forall (fun e : list piece * string => embedded_numbers e.2 = Ok e.1) ks ->
  Sorted key_order ks -> ordered (map snd ks) = true.
Proof.
  intros Hall Hs. induction Hs as [|p ks Hs IH Hp]; [done|].
  apply Forall_cons in Hall as [Hk Hall].
  destruct Hp as [|q ks Hq]; [done|].
  specialize (IH Hall). apply Forall_cons in Hall as [Hq' _].
  cbn [map] in *. by rewrite ordered_cons, Hk, Hq', Hq.
Qed.

(** Sorting never raises; it returns the same strings, each with a key
    that is not above the key of the next one. *)
Theorem sort_strings_with_embedded_numbers_ordered data :
  exists l,
    sort_strings_with_embedded_numbers data = Ok l /\
    l ≡ₚ data /\ ordered l = true.
Proof.
  destruct (keyed_returns data) as (ks & Hks & Hsnd & Hall).
  exists (map snd (sort_keyed ks)).
  unfold sort_strings_with_embedded_numbers. rewrite Hks. cbn.
  split; [done|]. split.
  - by rewrite (sort_keyed_perm ks), Hsnd.
  - apply sorted_ordered; [|apply sort_keyed_sorted].
    by rewrite (sort_keyed_perm ks).
Qed.

Lemma sort_keyed_ordered ks :
  Forall (fun e : list piece * string => embedded_numbers e.2 = Ok e.1) ks ->
  ordered (map snd ks) = true -> sort_keyed ks = ks.
Proof.
  induction ks as [|p ks IH]; [done|].
  intros [Hp Hall]%Forall_cons Hord.
  unfold sort_keyed in *. cbn [foldr].
  destruct ks as [|q ks]; [done|].
  pose proof Hall as [Hq _]%Forall_cons.
  cbn [map] in Hord, IH. rewrite ordered_cons, Hp, Hq in Hord.
  apply andb_true_iff in Hord as [Hpq Hord].
  rewrite (IH Hall Hord). cbn [insert_keyed]. by rewrite Hpq.
Qed.

(** Strings that are already in order stay as they are. *)
Theorem sort_strings_with_embedded_numbers_fixes_ordered data :
  ordered data = true ->
  sort_strings_with_embedded_numbers data = Ok data.
Proof.
  intros Hord. destruct (keyed_returns data) as (ks & Hks & Hsnd & Hall).
  unfold sort_strings_with_embedded_numbers. rewrite Hks. cbn.
  rewrite sort_keyed_ordered; [by rewrite Hsnd | done | by rewrite Hsnd].
Qed.

End NaturalOrder.

Lemma sort_by_embedded_number_files :
  sort_strings_with_embedded_numbers
    ["file" +:+ "10"; "file" +:+ "2"] =
  Ok ["file" +:+ "2"; "file" +:+ "10"].
Proof.
  apply (sort_by_embedded_number "file" "10" "2" 10 2); try reflexivity;
    discriminate.
Defined.

Lemma sort_strings_with_embedded_numbers_fixes_ordered_takes :
  ordered ["take2"; "take10"; "take10b"] = true /\
  sort_strings_with_embedded_numbers ["take2"; "take10"; "take10b"] =
  Ok ["take2"; "take10"; "take10b"].
Proof.
  split; [reflexivity|].
  apply sort_strings_with_embedded_numbers_fixes_ordered. reflexivity.
Defined.

(** ** What the builders do *)

Section ConverterOutcome.

Import Convert.

Variable T : tools.
Variable web_video_bitrate : Z.

Implicit Types (t : target) (kwargs : options) (fs : files).



End ConverterOutcome.
